(** * snowy: the geometry engine (geometry.ts)

    A shallow embedding of [closestPointOnSegment], [closestPointOnPolygon]
    and [cutPolygon], and the properties of the specification that are
    about them; then the event handlers of the canvas component that
    calls them (MyCanvas.vue), and what holds of the two together.

    Modelling conventions.
    - A JavaScript number is an ideal real number ([R]); [Number.MAX_VALUE]
      is the real number (2^53 - 1) * 2^971.  Rounding, NaN and the
      infinities are outside the model.
    - A plain [{x, y}] value whose identity the code never observes is a
      record [XY].  The objects that the code compares by reference
      ([!=], [indexOf]) are records [Obj] carrying the address they were
      allocated at; allocation threads a counter of fresh addresses.
      Only the allocations whose result is later compared by reference
      are counted: the point [closestPointOnPolygon] returns and the
      objects [cutPolygon] maps the vertices to.
    - A function whose body can [throw] lives in the monad [JS], whose
      outcomes are [Returns v] and [Throws msg]; the other functions are
      total functions. *)

From Stdlib Require Import String QArith Reals Lra Lia ZArith Bool Arith List.
Import ListNotations.

Local Open Scope R_scope.

(** * Part I: the embedding *)

(** ** Numbers *)

Module Number.

(** [Number.MAX_VALUE], the largest finite double. *)
Definition MAX_VALUE : R := (2 ^ 53 - 1) * 2 ^ 971.

(** The comparisons of the source, as boolean tests. *)
Definition ltb (u v : R) : bool := if Rlt_dec u v then true else false.

Definition leb (u v : R) : bool := if Rle_dec u v then true else false.

Definition eqb (u v : R) : bool := if Req_dec_T u v then true else false.

End Number.

(** ** Points *)

(** [fabric.XY]: a pair of coordinates. *)
Record XY : Type := mkXY { x : R; y : R }.

(** The methods of [fabric.Point] that the engine calls. *)
Module Point.

(** [new fabric.Point()] with no argument: the origin. *)
Definition origin : XY := mkXY 0 0.

(** [new fabric.Point(arg)]: the argument's coordinates; the constructor's
    default parameter turns [undefined] into the origin. *)
Definition new (arg : option XY) : XY :=
  match arg with
  | Some p => mkXY (x p) (y p)
  | None => origin
  end.

Definition add (p that : XY) : XY := mkXY (x p + x that) (y p + y that).

Definition subtract (p that : XY) : XY := mkXY (x p - x that) (y p - y that).

(** [p.eq(that)]: both coordinates are equal. *)
Definition eq (p that : XY) : bool :=
  Number.eqb (x p) (x that) && Number.eqb (y p) (y that).

End Point.

(** [fabric.Polygon], as far as the engine reads it: the vertices in the
    polygon's own coordinates, and its offset in the scene. *)
Record Polygon : Type := mkPolygon { points : list XY; left : R; top : R }.

(** ** Objects, allocation and exceptions *)

(** An object on the heap: where it was allocated, and its fields.  Two
    references are the same ([===]) when the addresses are. *)
Record Obj : Type := mkObj { addr : nat; xy : XY }.

Definition same_object (o1 o2 : Obj) : bool := (addr o1 =? addr o2)%nat.

Inductive outcome (A : Type) : Type :=
| Returns (v : A)
| Throws (msg : string).

Arguments Returns {A} v.
Arguments Throws {A} msg.

(** A computation: from the next fresh address to an outcome and the next
    fresh address after it. *)
Definition JS (A : Type) : Type := nat -> outcome A * nat.

Definition ret {A : Type} (v : A) : JS A := fun h => (Returns v, h).

Definition throw {A : Type} (msg : string) : JS A := fun h => (Throws msg, h).

Definition bind {A B : Type} (m : JS A) (k : A -> JS B) : JS B :=
  fun h =>
    match m h with
    | (Returns v, h') => k v h'
    | (Throws msg, h') => (Throws msg, h')
    end.

Notation "v <- m ;; k" := (bind m (fun v => k))
  (at level 61, m at next level, right associativity).

Notation "' pat <- m ;; k" := (bind m (fun v => match v with pat => k end))
  (at level 61, pat pattern, m at next level, right associativity).

(** A new object with the given fields. *)
Definition alloc (p : XY) : JS Obj := fun h => (Returns (mkObj h p), S h).

(** [array.map(f)] where [f] builds a new object per element. *)
Fixpoint map_alloc {A : Type} (f : A -> XY) (l : list A) : JS (list Obj) :=
  match l with
  | [] => ret []
  | a :: l' => o <- alloc (f a) ;; os <- map_alloc f l' ;; ret (o :: os)
  end.

(** ** Arrays *)

(** [array.forEach((element, index) => ...)], the callback's effect on the
    variables it closes over made explicit as a state [S]. *)
Fixpoint forEach {A S : Type} (callback : S -> A -> nat -> S)
    (l : list A) (index : nat) (s : S) : S :=
  match l with
  | [] => s
  | a :: l' => forEach callback l' (index + 1)%nat (callback s a index)
  end.

(** [array.slice(start, end)], negative indices counting from the end. *)
Definition slice {A : Type} (l : list A) (start end_ : Z) : list A :=
  let len := Z.of_nat (length l) in
  let k := if (start <? 0)%Z then Z.max (len + start) 0 else Z.min start len in
  let final := if (end_ <? 0)%Z then Z.max (len + end_) 0 else Z.min end_ len in
  firstn (Z.to_nat (final - k)) (skipn (Z.to_nat k) l).

(** [array.indexOf(o)] on an array of objects: the first position holding
    the same reference, or -1. *)
Fixpoint indexOf_from (l : list Obj) (o : Obj) (k : Z) : Z :=
  match l with
  | [] => (-1)%Z
  | v :: l' => if same_object v o then k else indexOf_from l' o (k + 1)%Z
  end.

Definition indexOf (l : list Obj) (o : Obj) : Z := indexOf_from l o 0%Z.

(** ** closestPointOnSegment *)

(** The closest point to [c] on the segment from [a] to [b], and its
    distance from [c]. *)
Definition closestPointOnSegment (a b c : XY) : XY * R :=
  let A := x c - x a in
  let B := y c - y a in
  let C := x b - x a in
  let D := y b - y a in
  let dot := A * C + B * D in
  let len_sq := C * C + D * D in
  let param := if negb (Number.eqb len_sq 0) then dot / len_sq else -1 in
  let '(xx, yy) :=
    if Number.ltb param 0 then (x a, y a)
    else if Number.ltb 1 param then (x b, y b)
    else (x a + param * C, y a + param * D) in
  let dx := x c - xx in
  let dy := y c - yy in
  (mkXY xx yy, sqrt (dx * dx + dy * dy)).

(** ** closestPointOnPolygon *)

(** The three variables the [forEach] callback updates.  The closest point
    starts as [polyPoints[0]], which is [undefined] on an empty array. *)
Record Best : Type := mkBest {
  shortestDist : R;
  closestPointOnPoly : option XY;
  segmentIndex : nat
}.

(** [prev]: the index before [index], the last one before the first. *)
Definition prevIndex (len index : nat) : nat :=
  ((if (index =? 0)%nat then len else index) - 1)%nat.

(** The body of the [forEach] callback. *)
Definition visitEdge (polyPoints : list XY) (point : XY)
    (best : Best) (p1 : XY) (index : nat) : Best :=
  let prev := prevIndex (length polyPoints) index in
  let p2 := nth prev polyPoints Point.origin in
  let line := Point.subtract (Point.new (Some p2)) p1 in
  if Point.eq line (mkXY 0 0) then best
  else
    let '(closestPoint, distance) := closestPointOnSegment p1 p2 point in
    if Number.leb distance (shortestDist best)
    then mkBest distance (Some closestPoint) prev
    else best.

(** The state the loop leaves: lines 64 to 83. *)
Definition closestPointOnPolygon_loop (poly : Polygon) (scenePoint : XY) : Best :=
  let point := Point.subtract scenePoint (mkXY (left poly) (top poly)) in
  let polyPoints := points poly in
  forEach (visitEdge polyPoints point) polyPoints 0%nat
    (mkBest Number.MAX_VALUE (nth_error polyPoints 0) 0%nat).

(** The coordinates of the point the function returns. *)
Definition snappedPoint (poly : Polygon) (scenePoint : XY) : XY :=
  Point.add
    (Point.new (closestPointOnPoly (closestPointOnPolygon_loop poly scenePoint)))
    (mkXY (left poly) (top poly)).

(** The closest point on the polygon, a new [fabric.Point], and the index
    of the segment it is on. *)
Definition closestPointOnPolygon (poly : Polygon) (scenePoint : XY)
  : JS (Obj * nat) :=
  p <- alloc (snappedPoint poly scenePoint) ;;
  ret (p, segmentIndex (closestPointOnPolygon_loop poly scenePoint)).

(** ** cutPolygon *)

(** [startPoint != polyPoints[i]]: both operands are objects, so the
    comparison is of references. *)
Definition not_same_object (o1 o2 : Obj) : bool := negb (same_object o1 o2).

Definition manhattan (p q : XY) : R :=
  Rabs (x p - x q) + Rabs (y p - y q).

(** One turn of the loop that gathers the exterior points: lines 118 to
    143, for a given [i]. *)
Definition gatherStep (polyPoints : list Obj)
    (startPoint : Obj) (startSegmentIndex : nat)
    (endPoint : Obj) (endSegmentIndex : nat)
    (vertices : list Obj) (i : nat) : list Obj :=
  let polyPoints_i := nth i polyPoints (mkObj 0 Point.origin) in
  let vertices := vertices ++ [polyPoints_i] in
  if (startSegmentIndex =? i)%nat && (endSegmentIndex =? i)%nat
     && not_same_object startPoint polyPoints_i
     && not_same_object endPoint polyPoints_i
  then
    let startDist := manhattan (xy startPoint) (xy polyPoints_i) in
    let endDist := manhattan (xy endPoint) (xy polyPoints_i) in
    if Number.ltb startDist endDist
    then vertices ++ [startPoint; endPoint]
    else vertices ++ [endPoint; startPoint]
  else if (startSegmentIndex =? i)%nat && not_same_object startPoint polyPoints_i
  then vertices ++ [startPoint]
  else if (endSegmentIndex =? i)%nat && not_same_object endPoint polyPoints_i
  then vertices ++ [endPoint]
  else vertices.

(** The array [vertices] after the loop. *)
Definition gatherVertices (polyPoints : list Obj)
    (startPoint : Obj) (startSegmentIndex : nat)
    (endPoint : Obj) (endSegmentIndex : nat) : list Obj :=
  fold_left
    (gatherStep polyPoints startPoint startSegmentIndex endPoint endSegmentIndex)
    (seq 0 (length polyPoints)) [].

(** Lines 145 to 166: the two shapes cut out of [vertices], each closed by
    the interior of the cut. *)
Definition assemble (vertices : list Obj) (startPoint endPoint : Obj)
    (cut : list XY) : list XY * list XY :=
  let startVerticeIndex := indexOf vertices startPoint in
  let endVerticeIndex := indexOf vertices endPoint in
  let '(shape1, shape2) :=
    if (startVerticeIndex <? endVerticeIndex)%Z then
      (slice vertices startVerticeIndex (endVerticeIndex + 1),
       slice vertices endVerticeIndex (Z.of_nat (length vertices))
       ++ slice vertices 0 (startVerticeIndex + 1))
    else
      (slice vertices startVerticeIndex (Z.of_nat (length vertices))
       ++ slice vertices 0 (endVerticeIndex + 1),
       slice vertices endVerticeIndex (startVerticeIndex + 1)) in
  let cutReverse := rev (slice cut 1 (-1)) in
  (map xy shape1 ++ cutReverse, map xy shape2 ++ slice cut 1 (-1)).

(** [new fabric.Point(cut[0])] and [new fabric.Point(cut[cut.length - 1])]. *)
Definition cutStart (cut : list XY) : XY := Point.new (nth_error cut 0).

Definition cutEnd (cut : list XY) : XY :=
  Point.new (nth_error cut (length cut - 1)).

(** The two polygons that cutting [poly] along [cut] leaves. *)
Definition cutPolygon (poly : Polygon) (cut : list XY)
  : JS (list XY * list XY) :=
  if (length cut <? 2)%nat then throw "cut path is too short"
  else
    '(startPoint, startSegmentIndex) <- closestPointOnPolygon poly (cutStart cut) ;;
    '(endPoint, endSegmentIndex) <- closestPointOnPolygon poly (cutEnd cut) ;;
    polyPoints <- map_alloc
                    (fun p => mkXY (x p + left poly) (y p + top poly))
                    (points poly) ;;
    let vertices :=
      gatherVertices polyPoints startPoint startSegmentIndex
        endPoint endSegmentIndex in
    ret (assemble vertices startPoint endPoint cut).

(** ** Vocabulary of the specification *)

Definition dot_product (u v : XY) : R := x u * x v + y u * y v.

(** |v|^2. *)
Definition norm_sq (v : XY) : R := dot_product v v.

(** [a + t (b - a)]. *)
Definition lerp (a b : XY) (t : R) : XY :=
  mkXY (x a + t * (x b - x a)) (y a + t * (y b - y a)).

(** The projection parameter t = ((C-A).(B-A)) / |B-A|^2. *)
Definition projection_parameter (a b c : XY) : R :=
  dot_product (Point.subtract c a) (Point.subtract b a)
  / norm_sq (Point.subtract b a).

(** The Euclidean distance between two points. *)
Definition euclidean_distance (p q : XY) : R :=
  sqrt ((x p - x q) * (x p - x q) + (y p - y q) * (y p - y q)).

(** [p] lies within the closed segment from [a] to [b]. *)
Definition on_segment (a b p : XY) : Prop :=
  exists t : R, 0 <= t <= 1 /\ p = lerp a b t.

(** Vertex [i] of a vertex list. *)
Definition vertex (polyPoints : list XY) (i : nat) : XY :=
  nth i polyPoints Point.origin.

(** The edge the loop visits at [index] joins vertex [index] to the vertex
    before it.  It is degenerate when the two are the same point. *)
Definition degenerate (polyPoints : list XY) (index : nat) : Prop :=
  vertex polyPoints (prevIndex (length polyPoints) index) = vertex polyPoints index.

(** What [closestPointOnSegment] answers for the edge visited at [index]. *)
Definition candidate (polyPoints : list XY) (point : XY) (index : nat) : XY * R :=
  closestPointOnSegment (vertex polyPoints index)
    (vertex polyPoints (prevIndex (length polyPoints) index)) point.

(** What the loop leaves, started from any state in the middle of the
    array: the state it started from if no edge was accepted, and otherwise
    the candidate of the last edge among those of least distance. *)
Definition loop_outcome (ps : list XY) (point : XY) (k : nat)
    (best final : Best) : Prop :=
  (final = best /\
   forall j, (k <= j < length ps)%nat -> ~ degenerate ps j ->
             shortestDist best < snd (candidate ps point j))
  \/
  (exists m, (k <= m < length ps)%nat /\ ~ degenerate ps m /\
     snd (candidate ps point m) <= shortestDist best /\
     final = mkBest (snd (candidate ps point m))
                    (Some (fst (candidate ps point m)))
                    (prevIndex (length ps) m) /\
     (forall j, (k <= j < length ps)%nat -> ~ degenerate ps j ->
                snd (candidate ps point m) <= snd (candidate ps point j)) /\
     (forall j, (m < j < length ps)%nat -> ~ degenerate ps j ->
                snd (candidate ps point m) < snd (candidate ps point j))).

(** The index after [i], the first one after the last. *)
Definition nextIndex (len i : nat) : nat :=
  if (i + 1 <? len)%nat then (i + 1)%nat else 0%nat.

(** The polygon's offset, and a vertex in scene coordinates. *)
Definition offset (poly : Polygon) : XY := mkXY (left poly) (top poly).

Definition sceneVertex (poly : Polygon) (i : nat) : XY :=
  Point.add (vertex (points poly) i) (offset poly).



(** The edge from vertex [i] to vertex [i + 1], the first one after the
    last. *)
Definition on_forward_edge (poly : Polygon) (i : nat) (p : XY) : Prop :=
  on_segment (sceneVertex poly i)
    (sceneVertex poly (nextIndex (length (points poly)) i)) p.

(** *** The variables of cutPolygon, for a run that starts at address [h] *)

(** The objects [array.map] allocates from address [h] on. *)
Fixpoint allocated (h : nat) (ps : list XY) : list Obj :=
  match ps with
  | [] => []
  | p :: ps' => mkObj h p :: allocated (S h) ps'
  end.

Definition startPointAt (poly : Polygon) (cut : list XY) (h : nat) : Obj :=
  mkObj h (snappedPoint poly (cutStart cut)).

Definition startSegmentIndexOf (poly : Polygon) (cut : list XY) : nat :=
  segmentIndex (closestPointOnPolygon_loop poly (cutStart cut)).

Definition endPointAt (poly : Polygon) (cut : list XY) (h : nat) : Obj :=
  mkObj (S h) (snappedPoint poly (cutEnd cut)).

Definition endSegmentIndexOf (poly : Polygon) (cut : list XY) : nat :=
  segmentIndex (closestPointOnPolygon_loop poly (cutEnd cut)).

Definition polyPointsAt (poly : Polygon) (h : nat) : list Obj :=
  allocated (S (S h))
    (map (fun p => mkXY (x p + left poly) (y p + top poly)) (points poly)).

Definition verticesAt (poly : Polygon) (cut : list XY) (h : nat) : list Obj :=
  gatherVertices (polyPointsAt poly h)
    (startPointAt poly cut h) (startSegmentIndexOf poly cut)
    (endPointAt poly cut h) (endSegmentIndexOf poly cut).

(** *** The words of the specification for the splitter *)

(** The interior points of the cut: the cut minus its first and last
    points. *)
Definition interior (cut : list XY) : list XY := removelast (tl cut).

(** The closed range [l[i..j]], both ends included. *)
Definition closed_range {A : Type} (l : list A) (i j : nat) : list A :=
  firstn (j + 1 - i) (skipn i l).

(** What is pushed after vertex [i] when the reference tests pass. *)
Definition inserted (polyPoints_i startPoint : Obj) (startSegmentIndex : nat)
    (endPoint : Obj) (endSegmentIndex : nat) (i : nat) : list Obj :=
  if (startSegmentIndex =? i)%nat && (endSegmentIndex =? i)%nat then
    if Number.ltb (manhattan (xy startPoint) (xy polyPoints_i))
                  (manhattan (xy endPoint) (xy polyPoints_i))
    then [startPoint; endPoint]
    else [endPoint; startPoint]
  else if (startSegmentIndex =? i)%nat then [startPoint]
  else if (endSegmentIndex =? i)%nat then [endPoint]
  else [].

(** The vertices of [l], numbered from [k], each followed by [g] of its
    number. *)
Fixpoint weave (l : list Obj) (k : nat) (g : Obj -> nat -> list Obj) : list Obj :=
  match l with
  | [] => []
  | v :: l' => v :: g v k ++ weave l' (S k) g
  end.

(** ** The scenarios of the specification *)

(** The square [(0,0), (300,0), (300,300), (0,300)], with no offset. *)
Definition square : Polygon :=
  mkPolygon [mkXY 0 0; mkXY 300 0; mkXY 300 300; mkXY 0 300] 0 0.

(** The straight vertical cut through the top and bottom edges. *)
Definition verticalCut : list XY := [mkXY 150 0; mkXY 150 300].

(** A cut with both ends on the same edge. *)
Definition sameEdgeCut : list XY := [mkXY 50 0; mkXY 250 0].

(** A cut from one corner of the square to the opposite one. *)
Definition diagonalCut : list XY := [mkXY 0 0; mkXY 300 300].


(** The corners of the axis-parallel rectangle from [(x0, y0)] to
    [(x1, y1)], in the order of the square's. *)
Definition corners (x0 x1 y0 y1 : R) : list XY :=
  [mkXY x0 y0; mkXY x1 y0; mkXY x1 y1; mkXY x0 y1].

(** A vertex loop that goes round that rectangle, from any corner on. *)
Definition rectangle_loop (x0 x1 y0 y1 : R) (loop : list XY) : Prop :=
  exists k : nat,
    loop = skipn k (corners x0 x1 y0 y1) ++ firstn k (corners x0 x1 y0 y1).

(** Twice the signed area a vertex loop encloses, by the shoelace formula;
    [first] closes the loop. *)
Fixpoint shoelace (first : XY) (loop : list XY) : R :=
  match loop with
  | [] => 0
  | p :: rest =>
      match rest with
      | [] => x p * y first - x first * y p
      | q :: _ => (x p * y q - x q * y p) + shoelace first rest
      end
  end.

Definition twice_area (loop : list XY) : R :=
  match loop with
  | [] => 0
  | first :: _ => shoelace first loop
  end.

(** The region such a loop encloses. *)
Definition in_rectangle (x0 x1 y0 y1 : R) (p : XY) : Prop :=
  x0 <= x p <= x1 /\ y0 <= y p <= y1.

(** ** More vocabulary *)



(** ** The canvas component (MyCanvas.vue)

    The component's event handlers, as functions on the variables they
    read and write.  A [fabric] object is the record of the properties the
    handlers touch; drawing ([requestRenderAll], [canvas.add],
    [bringObjectToFront]) has no effect on them.  The two shapes offered
    after a cut receive events only while they are on the canvas. *)























(** * Part II: properties *)

(** ** Numbers and points *)

Lemma ltb_spec (u v : R) : reflect (u < v) (Number.ltb u v).
Proof. unfold Number.ltb; destruct (Rlt_dec u v); constructor; assumption. Qed.

Lemma leb_spec (u v : R) : reflect (u <= v) (Number.leb u v).
Proof. unfold Number.leb; destruct (Rle_dec u v); constructor; assumption. Qed.

Lemma eqb_spec (u v : R) : reflect (u = v) (Number.eqb u v).
Proof. unfold Number.eqb; destruct (Req_dec_T u v); constructor; assumption. Qed.

Lemma ltb_true (u v : R) : u < v -> Number.ltb u v = true.
Proof. intros H; destruct (ltb_spec u v); [reflexivity | contradiction]. Qed.

Lemma ltb_false (u v : R) : v <= u -> Number.ltb u v = false.
Proof. intros H; destruct (ltb_spec u v); [lra | reflexivity]. Qed.

Lemma leb_true (u v : R) : u <= v -> Number.leb u v = true.
Proof. intros H; destruct (leb_spec u v); [reflexivity | contradiction]. Qed.

Lemma leb_false (u v : R) : v < u -> Number.leb u v = false.
Proof. intros H; destruct (leb_spec u v); [lra | reflexivity]. Qed.

Lemma eqb_true (u v : R) : u = v -> Number.eqb u v = true.
Proof. intros H; destruct (eqb_spec u v); [reflexivity | contradiction]. Qed.

Lemma eqb_false (u v : R) : u <> v -> Number.eqb u v = false.
Proof. intros H; destruct (eqb_spec u v); [contradiction | reflexivity]. Qed.

Lemma MAX_VALUE_large : 2 ^ 10 <= Number.MAX_VALUE.
Proof.
  unfold Number.MAX_VALUE.
  assert (H53 : 2 ^ 1 <= 2 ^ 53) by (apply Rle_pow; [lra | lia]).
  assert (H971 : 2 ^ 10 <= 2 ^ 971) by (apply Rle_pow; [lra | lia]).
  assert (Hpos : 0 < 2 ^ 10) by (apply pow_lt; lra).
  simpl pow at 1 in H53.
  nra.
Qed.

Lemma below_MAX_VALUE (u : R) : u <= 1024 -> u <= Number.MAX_VALUE.
Proof.
  intros H. apply Rle_trans with (2 ^ 10); [| exact MAX_VALUE_large].
  simpl; lra.
Qed.

Lemma XY_eq (p q : XY) : x p = x q -> y p = y q -> p = q.
Proof. destruct p, q; simpl; intros -> ->; reflexivity. Qed.

Lemma XY_neq (p q : XY) : p <> q -> x p <> x q \/ y p <> y q.
Proof.
  intros Hne.
  destruct (Req_dec_T (x p) (x q)) as [Hx | Hx]; [| left; exact Hx].
  destruct (Req_dec_T (y p) (y q)) as [Hy | Hy]; [| right; exact Hy].
  exfalso; apply Hne; apply XY_eq; assumption.
Qed.

Lemma Point_new_Some (p : XY) : Point.new (Some p) = p.
Proof. destruct p; reflexivity. Qed.

Lemma Point_eq_spec (p that : XY) : reflect (p = that) (Point.eq p that).
Proof.
  unfold Point.eq.
  destruct (eqb_spec (x p) (x that)) as [Hx | Hx];
    destruct (eqb_spec (y p) (y that)) as [Hy | Hy];
    simpl; constructor;
    solve [ apply XY_eq; assumption | intros ->; contradiction ].
Qed.



(** ** Segments *)

Lemma on_segment_start (a b : XY) : on_segment a b a.
Proof. exists 0; split; [lra | apply XY_eq; simpl; lra]. Qed.

Lemma on_segment_end (a b : XY) : on_segment a b b.
Proof. exists 1; split; [lra | apply XY_eq; simpl; lra]. Qed.

Lemma on_segment_sym (a b p : XY) : on_segment a b p -> on_segment b a p.
Proof.
  intros [t [Ht ->]]. exists (1 - t); split; [lra | apply XY_eq; simpl; lra].
Qed.

Lemma on_segment_translate (a b p off : XY) :
  on_segment a b p ->
  on_segment (Point.add a off) (Point.add b off) (Point.add p off).
Proof.
  intros [t [Ht ->]]. exists t; split; [exact Ht | apply XY_eq; simpl; lra].
Qed.

Lemma norm_sq_zero (v : XY) : norm_sq v = 0 <-> v = Point.origin.
Proof.
  unfold norm_sq, dot_product; split.
  - intros H. apply XY_eq; simpl; nra.
  - intros ->; simpl; lra.
Qed.

Lemma nondegenerate_len_sq (a b : XY) :
  a <> b -> norm_sq (Point.subtract b a) <> 0.
Proof.
  intros Hne H. apply norm_sq_zero in H.
  apply Hne, XY_eq; injection H; intros; lra.
Qed.

Lemma euclidean_distance_nonneg (p q : XY) : 0 <= euclidean_distance p q.
Proof. apply sqrt_pos. Qed.

Lemma euclidean_distance_refl (p : XY) : euclidean_distance p p = 0.
Proof.
  unfold euclidean_distance.
  replace ((x p - x p) * (x p - x p) + (y p - y p) * (y p - y p)) with 0 by lra.
  apply sqrt_0.
Qed.

(** The three branches of the clamp, one equation each. *)
Lemma closestPointOnSegment_before (a b c : XY) :
  a <> b -> projection_parameter a b c < 0 ->
  closestPointOnSegment a b c = (a, euclidean_distance c a).
Proof.
  intros Hne Ht. pose proof (nondegenerate_len_sq a b Hne) as Hlen.
  unfold projection_parameter, norm_sq, dot_product in *; simpl in *.
  unfold closestPointOnSegment.
  rewrite (eqb_false _ _ Hlen); simpl negb; cbv iota.
  rewrite (ltb_true _ _ Ht).
  destruct a; reflexivity.
Qed.

Lemma closestPointOnSegment_after (a b c : XY) :
  a <> b -> 1 < projection_parameter a b c ->
  closestPointOnSegment a b c = (b, euclidean_distance c b).
Proof.
  intros Hne Ht. pose proof (nondegenerate_len_sq a b Hne) as Hlen.
  unfold projection_parameter, norm_sq, dot_product in *; simpl in *.
  unfold closestPointOnSegment.
  rewrite (eqb_false _ _ Hlen); simpl negb; cbv iota.
  rewrite ltb_false by lra.
  rewrite (ltb_true _ _ Ht).
  destruct b; reflexivity.
Qed.

Lemma closestPointOnSegment_between (a b c : XY) :
  a <> b -> 0 <= projection_parameter a b c <= 1 ->
  closestPointOnSegment a b c =
    (lerp a b (projection_parameter a b c),
     euclidean_distance c (lerp a b (projection_parameter a b c))).
Proof.
  intros Hne Ht. pose proof (nondegenerate_len_sq a b Hne) as Hlen.
  unfold projection_parameter, norm_sq, dot_product in *; simpl in *.
  unfold closestPointOnSegment.
  rewrite (eqb_false _ _ Hlen); simpl negb; cbv iota.
  rewrite ltb_false by lra.
  rewrite ltb_false by lra.
  reflexivity.
Qed.

Lemma closestPointOnSegment_degenerate (a c : XY) :
  closestPointOnSegment a a c = (a, euclidean_distance c a).
Proof.
  unfold closestPointOnSegment.
  rewrite eqb_true by lra. simpl negb; cbv iota.
  rewrite ltb_true by lra.
  destruct a; reflexivity.
Qed.

(** The returned distance is the distance to the returned point, and the
    returned point is on the segment, whatever the segment. *)
Lemma closestPointOnSegment_distance (a b c : XY) :
  snd (closestPointOnSegment a b c) =
  euclidean_distance c (fst (closestPointOnSegment a b c)).
Proof.
  destruct (Point_eq_spec a b) as [-> | Hne].
  - rewrite closestPointOnSegment_degenerate; reflexivity.
  - destruct (Rlt_dec (projection_parameter a b c) 0) as [H0 | H0].
    + rewrite closestPointOnSegment_before by assumption; reflexivity.
    + destruct (Rlt_dec 1 (projection_parameter a b c)) as [H1 | H1].
      * rewrite closestPointOnSegment_after by assumption; reflexivity.
      * rewrite closestPointOnSegment_between by (assumption || lra); reflexivity.
Qed.

Lemma closestPointOnSegment_on_segment (a b c : XY) :
  on_segment a b (fst (closestPointOnSegment a b c)).
Proof.
  destruct (Point_eq_spec a b) as [-> | Hne].
  - rewrite closestPointOnSegment_degenerate; apply on_segment_start.
  - destruct (Rlt_dec (projection_parameter a b c) 0) as [H0 | H0].
    + rewrite closestPointOnSegment_before by assumption; apply on_segment_start.
    + destruct (Rlt_dec 1 (projection_parameter a b c)) as [H1 | H1].
      * rewrite closestPointOnSegment_after by assumption; apply on_segment_end.
      * rewrite closestPointOnSegment_between by (assumption || lra).
        exists (projection_parameter a b c); split; [lra | reflexivity].
Qed.

Lemma closestPointOnSegment_distance_nonneg (a b c : XY) :
  0 <= snd (closestPointOnSegment a b c).
Proof. rewrite closestPointOnSegment_distance; apply euclidean_distance_nonneg. Qed.

(** ** The loop of closestPointOnPolygon *)

Lemma prevIndex_lt (len index : nat) :
  (index < len)%nat -> (prevIndex len index < len)%nat.
Proof.
  unfold prevIndex; intros H.
  destruct (Nat.eqb_spec index 0); lia.
Qed.

Lemma nextIndex_prevIndex (len index : nat) :
  (index < len)%nat -> nextIndex len (prevIndex len index) = index.
Proof.
  unfold nextIndex, prevIndex; intros H.
  destruct (Nat.eqb_spec index 0) as [-> | Hne].
  - destruct (Nat.ltb_spec (len - 1 + 1) len); [lia | reflexivity].
  - destruct (Nat.ltb_spec (index - 1 + 1) len); lia.
Qed.

Lemma degenerate_test (p1 p2 : XY) :
  Point.eq (Point.subtract (Point.new (Some p2)) p1) (mkXY 0 0) = true <->
  p2 = p1.
Proof.
  rewrite Point_new_Some.
  destruct (Point_eq_spec (Point.subtract p2 p1) (mkXY 0 0)) as [H | H]; split.
  - intros _. injection H; intros. apply XY_eq; lra.
  - reflexivity.
  - discriminate.
  - intros ->. exfalso; apply H. apply XY_eq; simpl; lra.
Qed.

(** The callback, case by case. *)
Lemma visitEdge_degenerate (ps : list XY) (point : XY) (best : Best) (index : nat) :
  degenerate ps index ->
  visitEdge ps point best (vertex ps index) index = best.
Proof.
  unfold degenerate, visitEdge, vertex; intros Hd.
  apply degenerate_test in Hd. rewrite Hd. reflexivity.
Qed.

Lemma visitEdge_replace (ps : list XY) (point : XY) (best : Best) (index : nat) :
  ~ degenerate ps index ->
  snd (candidate ps point index) <= shortestDist best ->
  visitEdge ps point best (vertex ps index) index =
    mkBest (snd (candidate ps point index))
           (Some (fst (candidate ps point index)))
           (prevIndex (length ps) index).
Proof.
  unfold degenerate, visitEdge, candidate, vertex; intros Hd Hle.
  destruct (Point.eq _ _) eqn:E; [apply degenerate_test in E; contradiction |].
  destruct (closestPointOnSegment _ _ _) as [cp d]; simpl in *.
  rewrite leb_true by assumption. reflexivity.
Qed.

Lemma visitEdge_keep (ps : list XY) (point : XY) (best : Best) (index : nat) :
  shortestDist best < snd (candidate ps point index) ->
  visitEdge ps point best (vertex ps index) index = best.
Proof.
  unfold visitEdge, candidate, vertex; intros Hlt.
  destruct (Point.eq _ _); [reflexivity |].
  destruct (closestPointOnSegment _ _ _) as [cp d]; simpl in *.
  rewrite leb_false by assumption. reflexivity.
Qed.

Lemma skipn_cons_vertex (ps l : list XY) (p : XY) (k : nat) :
  skipn k ps = p :: l ->
  vertex ps k = p /\ skipn (k + 1) ps = l /\ (k < length ps)%nat.
Proof.
  revert k; induction ps as [| q ps IH]; intros k H.
  - destruct k; discriminate.
  - destruct k as [| k]; simpl in *.
    + injection H; intros; subst. repeat split; lia.
    + destruct (IH k H) as [Hv [Hs Hk]]. unfold vertex in *.
      repeat split; [assumption | assumption | lia].
Qed.

Lemma degenerate_dec (ps : list XY) (index : nat) :
  {degenerate ps index} + {~ degenerate ps index}.
Proof.
  unfold degenerate.
  destruct (Point_eq_spec (vertex ps (prevIndex (length ps) index)) (vertex ps index));
    [left | right]; assumption.
Qed.

Lemma forEach_visitEdge (ps : list XY) (point : XY) :
  forall (l : list XY) (k : nat) (best : Best),
    skipn k ps = l ->
    loop_outcome ps point k best (forEach (visitEdge ps point) l k best).
Proof.
  induction l as [| p l IH]; intros k best Hl.
  - left; split; [reflexivity |].
    intros j Hj. assert (length (skipn k ps) = 0)%nat by (rewrite Hl; reflexivity).
    rewrite length_skipn in H. lia.
  - destruct (skipn_cons_vertex _ _ _ _ Hl) as [Hv [Hs Hk]]. subst p.
    simpl forEach.
    assert (Hsplit : forall j, (k <= j < length ps)%nat ->
                               j = k \/ (k + 1 <= j < length ps)%nat) by lia.
    destruct (degenerate_dec ps k) as [Hd | Hd].
    + rewrite visitEdge_degenerate by assumption.
      destruct (IH (k + 1)%nat best Hs)
        as [[Hf Hall] | [m [Hm [Hdm [Hle [Hf [Hmin Hlast]]]]]]].
      * left; split; [assumption |].
        intros j Hj Hdj. destruct (Hsplit j Hj) as [-> | Hj']; [contradiction | auto].
      * right; exists m. repeat split; try assumption; try lia.
        intros j Hj Hdj. destruct (Hsplit j Hj) as [-> | Hj']; [contradiction | auto].
    + destruct (Rle_dec (snd (candidate ps point k)) (shortestDist best)) as [Hc | Hc].
      * rewrite visitEdge_replace by assumption.
        destruct (IH (k + 1)%nat
                    (mkBest (snd (candidate ps point k))
                            (Some (fst (candidate ps point k)))
                            (prevIndex (length ps) k)) Hs)
          as [[Hf Hall] | [m [Hm [Hdm [Hle [Hf [Hmin Hlast]]]]]]]; simpl in *.
        -- right; exists k. repeat split; try assumption; try lia.
           ++ intros j Hj Hdj. destruct (Hsplit j Hj) as [-> | Hj']; [lra |].
              left. apply Hall; assumption.
           ++ intros j Hj Hdj. apply Hall; [lia | assumption].
        -- right; exists m. repeat split; try assumption; try lia; try lra.
           intros j Hj Hdj. destruct (Hsplit j Hj) as [-> | Hj']; [lra | auto].
      * rewrite visitEdge_keep by lra.
        destruct (IH (k + 1)%nat best Hs)
          as [[Hf Hall] | [m [Hm [Hdm [Hle [Hf [Hmin Hlast]]]]]]].
        -- left; split; [assumption |].
           intros j Hj Hdj. destruct (Hsplit j Hj) as [-> | Hj']; [lra | auto].
        -- right; exists m. repeat split; try assumption; try lia.
           intros j Hj Hdj. destruct (Hsplit j Hj) as [-> | Hj']; [lra | auto].
Qed.

(** The whole loop. *)
Lemma closestPointOnPolygon_loop_outcome (poly : Polygon) (scenePoint : XY) :
  loop_outcome (points poly) (Point.subtract scenePoint (offset poly)) 0
    (mkBest Number.MAX_VALUE (nth_error (points poly) 0) 0)
    (closestPointOnPolygon_loop poly scenePoint).
Proof. apply forEach_visitEdge. reflexivity. Qed.


(** The function allocates one object, the point it returns, and never
    throws. *)
Lemma closestPointOnPolygon_run (poly : Polygon) (scenePoint : XY) (h : nat) :
  closestPointOnPolygon poly scenePoint h =
    (Returns (mkObj h (snappedPoint poly scenePoint),
              segmentIndex (closestPointOnPolygon_loop poly scenePoint)),
     S h).
Proof. reflexivity. Qed.









(** ** The edge an index names *)

Lemma sceneVertex_on_segment (poly : Polygon) (i j : nat) (p : XY) :
  on_segment (vertex (points poly) i) (vertex (points poly) j) p ->
  on_segment (sceneVertex poly i) (sceneVertex poly j) (Point.add p (offset poly)).
Proof. apply on_segment_translate. Qed.

Lemma closestPointOnPolygon_loop_on_forward_edge (poly : Polygon) (scenePoint : XY) :
  (1 <= length (points poly))%nat ->
  (segmentIndex (closestPointOnPolygon_loop poly scenePoint) < length (points poly))%nat /\
  on_forward_edge poly (segmentIndex (closestPointOnPolygon_loop poly scenePoint))
    (snappedPoint poly scenePoint).
Proof.
  intros Hn. unfold on_forward_edge, snappedPoint.
  destruct (closestPointOnPolygon_loop_outcome poly scenePoint)
    as [[Hf Hall] | [m [Hm [Hdm [Hle [Hf [Hmin Hlast]]]]]]]; rewrite Hf;
    cbn [closestPointOnPoly segmentIndex].
  - split; [lia |].
    destruct (points poly) as [| v0 ps] eqn:E; [simpl in Hn; lia |].
    cbn [nth_error]. rewrite Point_new_Some.
    change (mkXY (left poly) (top poly)) with (offset poly).
    unfold sceneVertex at 1. rewrite E. cbn [vertex nth].
    apply on_segment_translate with (a := v0). apply on_segment_start.
  - split; [apply prevIndex_lt; lia |].
    rewrite Point_new_Some, nextIndex_prevIndex by lia.
    change (mkXY (left poly) (top poly)) with (offset poly).
    apply sceneVertex_on_segment, on_segment_sym.
    apply closestPointOnSegment_on_segment.
Qed.

(** ** Arrays *)

Lemma slice_nat {A : Type} (l : list A) (i j : nat) :
  (i <= length l)%nat -> (j <= length l)%nat ->
  slice l (Z.of_nat i) (Z.of_nat j) = firstn (j - i) (skipn i l).
Proof.
  intros Hi Hj. unfold slice.
  destruct (Z.ltb_spec (Z.of_nat i) 0); [lia |].
  destruct (Z.ltb_spec (Z.of_nat j) 0); [lia |].
  rewrite !Z.min_l by lia.
  rewrite Nat2Z.id. f_equal. lia.
Qed.

Lemma slice_closed_range {A : Type} (l : list A) (i j : nat) :
  (i <= length l)%nat -> (j < length l)%nat ->
  slice l (Z.of_nat i) (Z.of_nat j + 1) = closed_range l i j.
Proof.
  intros Hi Hj. replace (Z.of_nat j + 1)%Z with (Z.of_nat (j + 1)) by lia.
  rewrite slice_nat by lia. reflexivity.
Qed.

Lemma slice_to_end {A : Type} (l : list A) (i : nat) :
  (i < length l)%nat ->
  slice l (Z.of_nat i) (Z.of_nat (length l)) = closed_range l i (length l - 1).
Proof.
  intros Hi. rewrite slice_nat by lia. unfold closed_range. f_equal. lia.
Qed.

Lemma slice_from_start {A : Type} (l : list A) (j : nat) :
  (j < length l)%nat ->
  slice l 0 (Z.of_nat j + 1) = closed_range l 0 j.
Proof. intros Hj. apply (slice_closed_range l 0 j); lia. Qed.

(** [cut.slice(1, -1)] is the interior of the cut. *)
Lemma slice_interior {A : Type} (l : list A) :
  slice l 1 (-1) = removelast (tl l).
Proof.
  unfold slice. cbn [Z.ltb Z.compare].
  destruct l as [| a l]; [reflexivity |].
  cbn [tl]. rewrite removelast_firstn_len.
  cbn [length]. rewrite Z.min_l by lia.
  change (Z.to_nat 1) with 1%nat. cbn [skipn].
  f_equal. lia.
Qed.

Lemma indexOf_from_found (l : list Obj) (o : Obj) :
  (forall v, In v l -> addr v = addr o -> v = o) ->
  In o l ->
  forall k : Z, exists s : nat,
    indexOf_from l o k = (k + Z.of_nat s)%Z /\ nth_error l s = Some o.
Proof.
  induction l as [| v l IH]; intros Huniq Hin k; [contradiction |].
  cbn [indexOf_from]. unfold same_object.
  destruct (Nat.eqb_spec (addr v) (addr o)) as [Heq | Hne].
  - exists 0%nat. split; [lia |].
    rewrite (Huniq v (or_introl Logic.eq_refl) Heq). reflexivity.
  - destruct Hin as [-> | Hin]; [contradiction |].
    destruct (IH (fun w Hw => Huniq w (or_intror Hw)) Hin (k + 1)%Z)
      as [s [Hs Hnth]].
    exists (S s). split; [lia | exact Hnth].
Qed.

Lemma indexOf_found (l : list Obj) (o : Obj) :
  (forall v, In v l -> addr v = addr o -> v = o) ->
  In o l ->
  exists s : nat,
    indexOf l o = Z.of_nat s /\ nth_error l s = Some o /\ (s < length l)%nat.
Proof.
  intros Huniq Hin.
  destruct (indexOf_from_found l o Huniq Hin 0%Z) as [s [Hs Hnth]].
  exists s. repeat split; [exact Hs | exact Hnth |].
  apply nth_error_Some. congruence.
Qed.

(** ** Allocation *)

Lemma map_alloc_run {A : Type} (f : A -> XY) (l : list A) :
  forall h, map_alloc f l h = (Returns (allocated h (map f l)), (h + length l)%nat).
Proof.
  induction l as [| a l IH]; intros h.
  - cbn. unfold ret. f_equal. lia.
  - cbn [map_alloc map allocated length]. unfold bind, alloc.
    rewrite IH. unfold ret. f_equal. lia.
Qed.

Lemma allocated_addr (ps : list XY) :
  forall h v, In v (allocated h ps) -> (h <= addr v)%nat.
Proof.
  induction ps as [| p ps IH]; intros h v Hin; [contradiction |].
  destruct Hin as [<- | Hin]; [simpl; lia |].
  apply IH in Hin. lia.
Qed.

Lemma allocated_length (ps : list XY) :
  forall h, length (allocated h ps) = length ps.
Proof. induction ps as [| p ps IH]; intros h; simpl; [| rewrite IH]; reflexivity. Qed.

Lemma allocated_map_xy (ps : list XY) :
  forall h, map xy (allocated h ps) = ps.
Proof. induction ps as [| p ps IH]; intros h; simpl; [| rewrite IH]; reflexivity. Qed.

Lemma polyPointsAt_length (poly : Polygon) (h : nat) :
  length (polyPointsAt poly h) = length (points poly).
Proof. unfold polyPointsAt. rewrite allocated_length, length_map. reflexivity. Qed.

(** The snapped points are never the same object as a polygon vertex, nor
    as each other. *)
Lemma polyPointsAt_fresh (poly : Polygon) (cut : list XY) (h : nat) (v : Obj) :
  In v (polyPointsAt poly h) ->
  addr v <> addr (startPointAt poly cut h) /\
  addr v <> addr (endPointAt poly cut h).
Proof.
  intros Hin. apply allocated_addr in Hin. simpl. lia.
Qed.

(** Once the guard on the cut's length has passed, the function returns:
    it has allocated the two snapped points and one object per vertex. *)
Lemma cutPolygon_run (poly : Polygon) (cut : list XY) (h : nat) :
  (2 <= length cut)%nat ->
  cutPolygon poly cut h =
    (Returns (assemble (verticesAt poly cut h)
                (startPointAt poly cut h) (endPointAt poly cut h) cut),
     (h + 2 + length (points poly))%nat).
Proof.
  intros Hcut. unfold cutPolygon.
  destruct (Nat.ltb_spec (length cut) 2) as [Hlt | _]; [lia |].
  unfold bind. rewrite !closestPointOnPolygon_run.
  rewrite map_alloc_run. unfold ret. f_equal. lia.
Qed.

(** ** The loop that gathers the exterior points *)

Section Gather.

Variables (polyPoints : list Obj) (startPoint endPoint : Obj).
Variables (startSegmentIndex endSegmentIndex : nat).

(** The snapped points are objects of their own. *)
Hypothesis start_fresh :
  forall v, In v polyPoints -> addr v <> addr startPoint.
Hypothesis end_fresh :
  forall v, In v polyPoints -> addr v <> addr endPoint.

Let default : Obj := mkObj 0 Point.origin.

Let pushes (v : Obj) (i : nat) : list Obj :=
  inserted v startPoint startSegmentIndex endPoint endSegmentIndex i.

(** Both reference tests of the loop pass at every vertex. *)
Lemma reference_tests_pass (i : nat) :
  (i < length polyPoints)%nat ->
  not_same_object startPoint (nth i polyPoints default) = true /\
  not_same_object endPoint (nth i polyPoints default) = true.
Proof.
  intros Hi. pose proof (nth_In polyPoints default Hi) as Hin.
  pose proof (start_fresh _ Hin) as Hs. pose proof (end_fresh _ Hin) as He.
  unfold not_same_object, same_object. split; apply negb_true_iff, Nat.eqb_neq; congruence.
Qed.

Lemma gatherStep_pushes (vertices : list Obj) (i : nat) :
  (i < length polyPoints)%nat ->
  gatherStep polyPoints startPoint startSegmentIndex endPoint endSegmentIndex
    vertices i =
  vertices ++ nth i polyPoints default :: pushes (nth i polyPoints default) i.
Proof.
  intros Hi. destruct (reference_tests_pass i Hi) as [Hs He].
  unfold gatherStep, pushes, inserted. fold default. rewrite Hs, He.
  rewrite !andb_true_r.
  destruct (startSegmentIndex =? i)%nat, (endSegmentIndex =? i)%nat; cbn [andb];
    try destruct (Number.ltb _ _);
    rewrite <- ?app_assoc; reflexivity.
Qed.

Lemma fold_gatherStep_weave (l : list Obj) :
  forall (k : nat) (vertices : list Obj),
    (k + length l <= length polyPoints)%nat ->
    (forall j, (j < length l)%nat -> nth (k + j) polyPoints default = nth j l default) ->
    fold_left
      (gatherStep polyPoints startPoint startSegmentIndex endPoint endSegmentIndex)
      (seq k (length l)) vertices =
    vertices ++ weave l k pushes.
Proof.
  induction l as [| v l IH]; intros k vertices Hlen Hnth.
  - cbn. rewrite app_nil_r. reflexivity.
  - cbn [length seq fold_left weave]. cbn [length] in Hlen.
    rewrite gatherStep_pushes by lia.
    rewrite IH.
    + pose proof (Hnth 0%nat ltac:(cbn; lia)) as H0.
      rewrite Nat.add_0_r in H0. cbn [nth] in H0. rewrite H0.
      rewrite <- app_assoc. reflexivity.
    + lia.
    + intros j Hj. specialize (Hnth (S j) ltac:(cbn; lia)).
      cbn [nth] in Hnth. rewrite <- Hnth. f_equal. lia.
Qed.

(** The array [vertices]: every vertex in order, each followed by what the
    loop pushes after it. *)
Lemma gatherVertices_weave :
  gatherVertices polyPoints startPoint startSegmentIndex endPoint endSegmentIndex
  = weave polyPoints 0 pushes.
Proof.
  unfold gatherVertices.
  rewrite fold_gatherStep_weave with (l := polyPoints); [reflexivity | lia |].
  intros j _. reflexivity.
Qed.

End Gather.

(** *** Facts on [weave] *)

Lemma weave_nothing (g : Obj -> nat -> list Obj) (l : list Obj) :
  forall k, (forall v j, (k <= j)%nat -> g v j = []) -> weave l k g = l.
Proof.
  induction l as [| v l IH]; intros k Hg; [reflexivity |].
  cbn [weave]. rewrite Hg by lia. cbn [app]. rewrite IH; [reflexivity |].
  intros w j Hj. apply Hg. lia.
Qed.

(** When only vertex [i] is followed by something, that is inserted right
    after it and the rest of the array is the polygon's. *)
Lemma weave_single (g : Obj -> nat -> list Obj) (i : nat) (l : list Obj) :
  forall k,
    (forall v j, j <> i -> g v j = []) ->
    (k <= i < k + length l)%nat ->
    weave l k g =
      firstn (i - k + 1) l ++ g (nth (i - k) l (mkObj 0 Point.origin)) i
      ++ skipn (i - k + 1) l.
Proof.
  induction l as [| v l IH]; intros k Hg Hi; [cbn in Hi; lia |].
  cbn [weave]. destruct (Nat.eq_dec i k) as [-> | Hne].
  - rewrite Nat.sub_diag. cbn [Nat.add firstn skipn nth app].
    rewrite weave_nothing; [reflexivity |].
    intros w j Hj. apply Hg. lia.
  - rewrite (Hg v k) by lia. cbn [app].
    rewrite (IH (S k) Hg) by (cbn [length] in Hi; lia).
    replace (i - k)%nat with (S (i - S k)) by lia.
    cbn [Nat.add firstn skipn nth app]. reflexivity.
Qed.

Lemma In_weave (g : Obj -> nat -> list Obj) (o : Obj) (l : list Obj) :
  forall k, In o (weave l k g) ->
            In o l \/ exists v j, In v l /\ In o (g v j).
Proof.
  induction l as [| v l IH]; intros k Hin; [contradiction |].
  cbn [weave] in Hin. destruct Hin as [<- | Hin]; [left; left; reflexivity |].
  apply in_app_or in Hin. destruct Hin as [Hin | Hin].
  - right. exists v, k. split; [left; reflexivity | exact Hin].
  - destruct (IH (S k) Hin) as [H | [w [j [Hw Hj]]]].
    + left; right; exact H.
    + right. exists w, j. split; [right; exact Hw | exact Hj].
Qed.

Lemma weave_In (g : Obj -> nat -> list Obj) (o : Obj) (l : list Obj) :
  forall k i, (i < length l)%nat ->
              In o (g (nth i l (mkObj 0 Point.origin)) (k + i)%nat) ->
              In o (weave l k g).
Proof.
  induction l as [| v l IH]; intros k i Hi Hin; [cbn in Hi; lia |].
  cbn [weave]. right. apply in_or_app.
  destruct i as [| i].
  - left. rewrite Nat.add_0_r in Hin. exact Hin.
  - right. apply (IH (S k) i); [cbn [length] in Hi; lia |].
    replace (S k + i)%nat with (k + S i)%nat by lia. exact Hin.
Qed.

Lemma inserted_In (v s e : Obj) (si ei i : nat) (o : Obj) :
  In o (inserted v s si e ei i) -> o = s \/ o = e.
Proof.
  unfold inserted.
  destruct (si =? i)%nat, (ei =? i)%nat; cbn [andb];
    try destruct (Number.ltb _ _); cbn [In]; intuition auto.
Qed.

Lemma inserted_start (v s e : Obj) (si ei : nat) :
  In s (inserted v s si e ei si).
Proof.
  unfold inserted. rewrite Nat.eqb_refl.
  destruct (ei =? si)%nat; cbn [andb];
    try destruct (Number.ltb _ _); cbn [In]; auto.
Qed.

Lemma inserted_end (v s e : Obj) (si ei : nat) :
  In e (inserted v s si e ei ei).
Proof.
  unfold inserted. rewrite Nat.eqb_refl.
  destruct (si =? ei)%nat; cbn [andb];
    try destruct (Number.ltb _ _); cbn [In]; auto.
Qed.

(** ** The array [vertices] of a run *)

Lemma verticesAt_weave (poly : Polygon) (cut : list XY) (h : nat) :
  verticesAt poly cut h =
  weave (polyPointsAt poly h) 0
    (fun v i => inserted v (startPointAt poly cut h) (startSegmentIndexOf poly cut)
                  (endPointAt poly cut h) (endSegmentIndexOf poly cut) i).
Proof.
  unfold verticesAt. apply gatherVertices_weave.
  - intros v Hv. apply (polyPointsAt_fresh poly cut h v Hv).
  - intros v Hv. apply (polyPointsAt_fresh poly cut h v Hv).
Qed.

Lemma segmentIndex_lt (poly : Polygon) (scenePoint : XY) :
  (1 <= length (points poly))%nat ->
  (segmentIndex (closestPointOnPolygon_loop poly scenePoint) < length (points poly))%nat.
Proof. intros Hn. apply closestPointOnPolygon_loop_on_forward_edge, Hn. Qed.

Lemma startPointAt_In (poly : Polygon) (cut : list XY) (h : nat) :
  (1 <= length (points poly))%nat ->
  In (startPointAt poly cut h) (verticesAt poly cut h).
Proof.
  intros Hn. rewrite verticesAt_weave.
  apply weave_In with (i := startSegmentIndexOf poly cut).
  - rewrite polyPointsAt_length. apply segmentIndex_lt, Hn.
  - apply inserted_start.
Qed.

Lemma endPointAt_In (poly : Polygon) (cut : list XY) (h : nat) :
  (1 <= length (points poly))%nat ->
  In (endPointAt poly cut h) (verticesAt poly cut h).
Proof.
  intros Hn. rewrite verticesAt_weave.
  apply weave_In with (i := endSegmentIndexOf poly cut).
  - rewrite polyPointsAt_length. apply segmentIndex_lt, Hn.
  - apply inserted_end.
Qed.

(** Every element of [vertices] is a polygon vertex or a snapped point. *)
Lemma verticesAt_elements (poly : Polygon) (cut : list XY) (h : nat) (o : Obj) :
  In o (verticesAt poly cut h) ->
  In o (polyPointsAt poly h) \/ o = startPointAt poly cut h \/ o = endPointAt poly cut h.
Proof.
  rewrite verticesAt_weave. intros Hin.
  apply In_weave in Hin. destruct Hin as [H | [v [j [_ H]]]]; [left; exact H |].
  right. apply inserted_In in H. exact H.
Qed.

Lemma verticesAt_same_address (poly : Polygon) (cut : list XY) (h : nat) (o : Obj) :
  In o (verticesAt poly cut h) ->
  (addr o = addr (startPointAt poly cut h) -> o = startPointAt poly cut h) /\
  (addr o = addr (endPointAt poly cut h) -> o = endPointAt poly cut h).
Proof.
  intros Hin. apply verticesAt_elements in Hin.
  destruct Hin as [Hin | [-> | ->]].
  - destruct (polyPointsAt_fresh poly cut h o Hin) as [Hs He].
    split; intros H; contradiction.
  - split; [reflexivity | simpl; lia].
  - split; [simpl; lia | reflexivity].
Qed.

(** [indexOf] finds both snapped points, at two different positions. *)
Lemma verticesAt_positions (poly : Polygon) (cut : list XY) (h : nat) :
  (1 <= length (points poly))%nat ->
  exists s e : nat,
    indexOf (verticesAt poly cut h) (startPointAt poly cut h) = Z.of_nat s /\
    indexOf (verticesAt poly cut h) (endPointAt poly cut h) = Z.of_nat e /\
    nth_error (verticesAt poly cut h) s = Some (startPointAt poly cut h) /\
    nth_error (verticesAt poly cut h) e = Some (endPointAt poly cut h) /\
    (s < length (verticesAt poly cut h))%nat /\
    (e < length (verticesAt poly cut h))%nat /\
    s <> e.
Proof.
  intros Hn.
  destruct (indexOf_found (verticesAt poly cut h) (startPointAt poly cut h))
    as [s [Hs [Hsn Hsl]]].
  { intros v Hv. apply (verticesAt_same_address poly cut h v Hv). }
  { apply startPointAt_In, Hn. }
  destruct (indexOf_found (verticesAt poly cut h) (endPointAt poly cut h))
    as [e [He [Hen Hel]]].
  { intros v Hv. apply (verticesAt_same_address poly cut h v Hv). }
  { apply endPointAt_In, Hn. }
  exists s, e. repeat split; try assumption.
  intros ->.
  assert (H : startPointAt poly cut h = endPointAt poly cut h) by congruence.
  apply (f_equal addr) in H. simpl in H. lia.
Qed.

(** The objects allocated for the vertices hold the vertices in scene
    coordinates. *)
Lemma polyPointsAt_xy (poly : Polygon) (h : nat) :
  map xy (polyPointsAt poly h) =
  map (fun p => Point.add p (offset poly)) (points poly).
Proof. unfold polyPointsAt. rewrite allocated_map_xy. reflexivity. Qed.

Lemma polyPointsAt_nth (poly : Polygon) (h i : nat) :
  (i < length (points poly))%nat ->
  xy (nth i (polyPointsAt poly h) (mkObj 0 Point.origin)) = sceneVertex poly i.
Proof.
  intros Hi.
  rewrite <- (map_nth xy).
  rewrite polyPointsAt_xy. unfold sceneVertex, vertex.
  rewrite (nth_indep _ _ (Point.add Point.origin (offset poly)))
    by (rewrite length_map; exact Hi).
  apply (map_nth (fun p => Point.add p (offset poly))).
Qed.

(** ** Evaluation on given numbers *)

(** A closed expression of real arithmetic, as a rational to compute. *)
Ltac reifyQ e :=
  lazymatch e with
  | R0 => constr:(0%Q)
  | R1 => constr:(1%Q)
  | IZR ?z => constr:(inject_Z z)
  | Rplus ?a ?b =>
      let a' := reifyQ a in let b' := reifyQ b in constr:(Qplus a' b')
  | Rminus ?a ?b =>
      let a' := reifyQ a in let b' := reifyQ b in constr:(Qminus a' b')
  | Rmult ?a ?b =>
      let a' := reifyQ a in let b' := reifyQ b in constr:(Qmult a' b')
  | Rdiv ?a ?b =>
      let a' := reifyQ a in let b' := reifyQ b in constr:(Qdiv a' b')
  | Ropp ?a => let a' := reifyQ a in constr:(Qopp a')
  | Rinv ?a => let a' := reifyQ a in constr:(Qinv a')
  end.

Ltac literal_of_Q v :=
  lazymatch v with
  | (?n # 1)%Q => constr:(IZR n)
  | (?n # ?d)%Q => constr:(IZR n / IZR (Zpos d))
  end.

(** The numeral a closed expression is equal to. *)
Ltac Rliteral e :=
  let q := reifyQ e in
  let v := eval vm_compute in (Qred q) in
  literal_of_Q v.

(** The numeral its square root is equal to, when it is a rational. *)
Ltac Rsqrt_literal e :=
  let q := reifyQ e in
  let v := eval vm_compute in (Qred q) in
  lazymatch v with
  | (?n # ?d)%Q =>
      let sn := eval vm_compute in (Z.sqrt n) in
      let sd := eval vm_compute in (Z.to_pos (Z.sqrt (Zpos d))) in
      literal_of_Q (sn # sd)%Q
  end.

Ltac decide_abs :=
  repeat match goal with
    | |- context [Rabs ?u] =>
        first [rewrite (Rabs_pos_eq u) by lra | rewrite (Rabs_left1 u) by lra]
    end.

(** Settle every comparison of numbers in the goal. *)
Ltac decide_tests :=
  repeat match goal with
    | |- context [Number.eqb ?u ?v] =>
        first [rewrite (eqb_true u v) by lra | rewrite (eqb_false u v) by lra]
    | |- context [Number.ltb ?u ?v] =>
        first [rewrite (ltb_true u v) by lra | rewrite (ltb_false u v) by lra]
    | |- context [Number.leb ?u Number.MAX_VALUE] =>
        rewrite (leb_true u Number.MAX_VALUE) by (apply below_MAX_VALUE; lra)
    | |- context [Number.leb ?u ?v] =>
        first [rewrite (leb_true u v) by lra | rewrite (leb_false u v) by lra]
    end.

(** Settle every comparison of addresses in the goal. *)
Ltac decide_addresses :=
  repeat match goal with
    | |- context [(?a =? ?b)%nat] =>
        first [rewrite (proj2 (Nat.eqb_eq a b)) by lia
              | rewrite (proj2 (Nat.eqb_neq a b)) by lia]
    end.

Lemma forEach_step {A S : Type} (f : S -> A -> nat -> S)
    (a : A) (l : list A) (k : nat) (s s' : S) :
  f s a k = s' -> forEach f (a :: l) k s = forEach f l (k + 1) s'.
Proof. intros <-; reflexivity. Qed.

(** [closestPointOnSegment a b c = ?r] on given points. *)
Ltac eval_segment :=
  unfold closestPointOnSegment; cbn [x y]; decide_tests; cbn [negb]; decide_tests;
  cbv beta iota zeta;
  match goal with
  | |- (_, sqrt ?e) = _ =>
      let l := Rsqrt_literal e in
      replace (sqrt e) with l by (symmetry; apply sqrt_lem_1; lra)
  end;
  match goal with
  | |- ({| x := ?e1; y := ?e2 |}, _) = _ =>
      let l1 := Rliteral e1 in
      let l2 := Rliteral e2 in
      replace e1 with l1 by lra; replace e2 with l2 by lra
  end;
  reflexivity.

Ltac rewrite_segment :=
  match goal with
  | |- context [closestPointOnSegment ?a ?b ?c] =>
      let H := fresh in
      eassert (H : closestPointOnSegment a b c = _) by eval_segment;
      rewrite H; clear H
  end.

(** [visitEdge ps point best p1 index = ?best'] on given points. *)
Ltac eval_visit :=
  unfold visitEdge, prevIndex, Point.eq, Point.subtract, Point.new;
  cbn [length nth Nat.eqb Nat.sub x y];
  decide_tests; cbn [andb]; cbv iota;
  try rewrite_segment;
  cbv beta iota; cbn [shortestDist]; decide_tests; cbv iota;
  reflexivity.

(** Run the loop of [closestPointOnPolygon] on a given polygon. *)
Ltac eval_loop :=
  unfold closestPointOnPolygon_loop;
  unfold Point.subtract; cbn [points left top nth_error x y];
  repeat (erewrite forEach_step by eval_visit; cbn [Nat.add]);
  cbn [forEach].



(** *** The snaps of the scenarios *)

Lemma square_snap_150_0 :
  closestPointOnPolygon_loop square (mkXY 150 0) = mkBest 0 (Some (mkXY 150 0)) 0.
Proof. unfold square. eval_loop. reflexivity. Qed.

Lemma square_snap_150_300 :
  closestPointOnPolygon_loop square (mkXY 150 300) = mkBest 0 (Some (mkXY 150 300)) 2.
Proof. unfold square. eval_loop. reflexivity. Qed.

Lemma square_snap_50_0 :
  closestPointOnPolygon_loop square (mkXY 50 0) = mkBest 0 (Some (mkXY 50 0)) 0.
Proof. unfold square. eval_loop. reflexivity. Qed.

Lemma square_snap_250_0 :
  closestPointOnPolygon_loop square (mkXY 250 0) = mkBest 0 (Some (mkXY 250 0)) 0.
Proof. unfold square. eval_loop. reflexivity. Qed.

Lemma square_snap_0_0 :
  closestPointOnPolygon_loop square (mkXY 0 0) = mkBest 0 (Some (mkXY 0 0)) 0.
Proof. unfold square. eval_loop. reflexivity. Qed.

Lemma square_snap_300_300 :
  closestPointOnPolygon_loop square (mkXY 300 300) = mkBest 0 (Some (mkXY 300 300)) 2.
Proof. unfold square. eval_loop. reflexivity. Qed.

Lemma square_snap_0_300 :
  closestPointOnPolygon_loop square (mkXY 0 300) = mkBest 0 (Some (mkXY 0 300)) 2.
Proof. unfold square. eval_loop. reflexivity. Qed.

Lemma square_snap_inside :
  closestPointOnPolygon_loop square (mkXY 120 130) = mkBest 120 (Some (mkXY 0 130)) 3.
Proof. unfold square. eval_loop. reflexivity. Qed.


Ltac compute_indices :=
  repeat match goal with
    | |- context [Z.to_nat ?z] =>
        let n := eval vm_compute in (Z.to_nat z) in change (Z.to_nat z) with n
    | |- context [Z.ltb ?a ?b] =>
        let v := eval vm_compute in (Z.ltb a b) in change (Z.ltb a b) with v
    end.

(** The variables of a run of [cutPolygon], down to the two snaps. *)
Ltac eval_snaps :=
  unfold startSegmentIndexOf, endSegmentIndexOf, startPointAt, endPointAt,
    snappedPoint, cutStart, cutEnd;
  cbn [length nth_error Nat.sub];
  rewrite !Point_new_Some.

(** The array [vertices], once the snaps are numbers. *)
Ltac eval_vertices :=
  cbn [segmentIndex closestPointOnPoly];
  unfold polyPointsAt, inserted, manhattan, Point.add, Point.new;
  cbn [points left top map allocated weave x y xy Nat.eqb andb app];
  decide_abs; decide_tests; cbv iota; cbn [app].

(** The two shapes, once [vertices] is a given array. *)
Ltac eval_assemble :=
  unfold assemble, indexOf; cbn [indexOf_from]; unfold same_object; cbn [addr];
  decide_addresses; cbv iota;
  unfold slice; compute_indices; cbv iota;
  cbn [firstn skipn app map xy rev].

(** Two results that differ in how their numbers are written. *)
Ltac same_result :=
  f_equal; [repeat f_equal; lra | cbn [length]; lia].

(** * Part III: the claims of the specification *)

(** ** Point-to-segment projection *)



(** C10. On a degenerate segment, where [a] and [b] are the same point,
    [closestPointOnSegment] returns that point and the Euclidean distance
    from the query point to it: the parameter stays at -1 and the clamp
    takes the first branch.  The function has no failing outcome. *)
Theorem closestPointOnSegment_degenerate_segment (a c : XY) :
  closestPointOnSegment a a c = (a, euclidean_distance c a).
Proof. apply closestPointOnSegment_degenerate. Qed.

(** ** Errors *)

(** C7. [cutPolygon] throws exactly when the cut has fewer than 2 points;
    it then throws ["cut path is too short"] without having allocated
    anything: no snap was computed and no array built.  A cut of one point
    is such a cut. *)
Theorem cutPolygon_throws_iff_short_cut (poly : Polygon) (cut : list XY) (h : nat) :
  ((exists msg h', cutPolygon poly cut h = (Throws msg, h')) <->
   (length cut < 2)%nat) /\
  ((length cut < 2)%nat ->
   cutPolygon poly cut h = (Throws "cut path is too short"%string, h)) /\
  (forall p : XY,
     cutPolygon poly [p] h = (Throws "cut path is too short"%string, h)).
Proof.
  assert (Hshort : (length cut < 2)%nat ->
            cutPolygon poly cut h = (Throws "cut path is too short"%string, h)).
  { intros Hlt. unfold cutPolygon.
    destruct (Nat.ltb_spec (length cut) 2) as [_ | Hge]; [reflexivity | lia]. }
  split; [| split].
  - split.
    + intros [msg [h' Hthrow]].
      destruct (Nat.lt_ge_cases (length cut) 2) as [Hlt | Hge]; [exact Hlt |].
      rewrite cutPolygon_run in Hthrow by exact Hge. discriminate.
    + intros Hlt. eexists; eexists. apply Hshort, Hlt.
  - exact Hshort.
  - intros p. reflexivity.
Qed.

Lemma cutPolygon_throws_iff_short_cut_witness :
  cutPolygon square [mkXY 150 0] 0%nat = (Throws "cut path is too short"%string, 0%nat).
Proof.
  apply (proj1 (proj2 (cutPolygon_throws_iff_short_cut square [mkXY 150 0] 0%nat))).
  cbn [length]. lia.
Defined.




(** ** Point-to-polygon projection *)






(** ** Splitting *)

(** C2. For a polygon of at least 3 vertices and a cut of at least 2
    points, the snapped start and end points stand at two different
    positions [s] and [e] of the array [vertices].  With [I] the interior
    of the cut: when [s] is before [e], the first shape is
    [vertices[s..e]] then [I] reversed, and the second is [vertices[e..]]
    to the end of the array, then [vertices[0..s]], then [I]; when [e] is
    before [s], the first shape is [vertices[s..]] to the end, then
    [vertices[0..e]], then [I] reversed, and the second is [vertices[e..s]]
    then [I]. *)
Theorem cutPolygon_arcs (poly : Polygon) (cut : list XY) (h : nat) :
  (3 <= length (points poly))%nat ->
  (2 <= length cut)%nat ->
  exists s e : nat,
    indexOf (verticesAt poly cut h) (startPointAt poly cut h) = Z.of_nat s /\
    indexOf (verticesAt poly cut h) (endPointAt poly cut h) = Z.of_nat e /\
    nth_error (verticesAt poly cut h) s = Some (startPointAt poly cut h) /\
    nth_error (verticesAt poly cut h) e = Some (endPointAt poly cut h) /\
    s <> e /\
    ((s < e)%nat ->
     fst (cutPolygon poly cut h) =
       Returns
         (map xy (closed_range (verticesAt poly cut h) s e)
            ++ rev (interior cut),
          map xy (closed_range (verticesAt poly cut h) e
                    (length (verticesAt poly cut h) - 1)
                  ++ closed_range (verticesAt poly cut h) 0 s)
            ++ interior cut)) /\
    ((e < s)%nat ->
     fst (cutPolygon poly cut h) =
       Returns
         (map xy (closed_range (verticesAt poly cut h) s
                    (length (verticesAt poly cut h) - 1)
                  ++ closed_range (verticesAt poly cut h) 0 e)
            ++ rev (interior cut),
          map xy (closed_range (verticesAt poly cut h) e s)
            ++ interior cut)).
Proof.
  intros Hn Hcut.
  destruct (verticesAt_positions poly cut h ltac:(lia))
    as [s [e [Hs [He [Hsn [Hen [Hsl [Hel Hse]]]]]]]].
  exists s, e. repeat (split; [assumption |]).
  rewrite cutPolygon_run by exact Hcut. cbn [fst].
  unfold assemble. rewrite Hs, He, !slice_interior. fold (interior cut).
  split; intros Hlt.
  - destruct (Z.ltb_spec (Z.of_nat s) (Z.of_nat e)) as [_ | Hge]; [| lia].
    rewrite slice_closed_range, slice_to_end, slice_from_start by lia.
    reflexivity.
  - destruct (Z.ltb_spec (Z.of_nat s) (Z.of_nat e)) as [Hlt' | _]; [lia |].
    rewrite slice_closed_range, slice_to_end, slice_from_start by lia.
    reflexivity.
Qed.

Lemma cutPolygon_arcs_witness :
  exists s e : nat,
    indexOf (verticesAt square verticalCut 0) (startPointAt square verticalCut 0)
      = Z.of_nat s /\
    indexOf (verticesAt square verticalCut 0) (endPointAt square verticalCut 0)
      = Z.of_nat e /\
    nth_error (verticesAt square verticalCut 0) s
      = Some (startPointAt square verticalCut 0) /\
    nth_error (verticesAt square verticalCut 0) e
      = Some (endPointAt square verticalCut 0) /\
    s <> e /\
    ((s < e)%nat ->
     fst (cutPolygon square verticalCut 0%nat) =
       Returns
         (map xy (closed_range (verticesAt square verticalCut 0) s e)
            ++ rev (interior verticalCut),
          map xy (closed_range (verticesAt square verticalCut 0) e
                    (length (verticesAt square verticalCut 0) - 1)
                  ++ closed_range (verticesAt square verticalCut 0) 0 s)
            ++ interior verticalCut)) /\
    ((e < s)%nat ->
     fst (cutPolygon square verticalCut 0%nat) =
       Returns
         (map xy (closed_range (verticesAt square verticalCut 0) s
                    (length (verticesAt square verticalCut 0) - 1)
                  ++ closed_range (verticesAt square verticalCut 0) 0 e)
            ++ rev (interior verticalCut),
          map xy (closed_range (verticesAt square verticalCut 0) e s)
            ++ interior verticalCut)).
Proof.
  apply (cutPolygon_arcs square verticalCut 0%nat).
  - cbn [square points length]. lia.
  - cbn [verticalCut length]. lia.
Defined.






Lemma weave_incl (g : Obj -> nat -> list Obj) (o : Obj) (l : list Obj) :
  forall k, In o l -> In o (weave l k g).
Proof.
  induction l as [| v l IH]; intros k Hin; [contradiction |].
  cbn [weave]. destruct Hin as [-> | Hin]; [left; reflexivity |].
  right. apply in_or_app. right. apply IH, Hin.
Qed.

(** In every run both reference tests pass at every vertex: the snapped
    points are new objects, never a polygon vertex itself. *)
Lemma cutPolygon_reference_tests_pass (poly : Polygon) (cut : list XY) (h i : nat) :
  (i < length (points poly))%nat ->
  not_same_object (startPointAt poly cut h)
    (nth i (polyPointsAt poly h) (mkObj 0 Point.origin)) = true /\
  not_same_object (endPointAt poly cut h)
    (nth i (polyPointsAt poly h) (mkObj 0 Point.origin)) = true.
Proof.
  intros Hi. apply reference_tests_pass.
  - intros v Hv. apply (polyPointsAt_fresh poly cut h v Hv).
  - intros v Hv. apply (polyPointsAt_fresh poly cut h v Hv).
  - rewrite polyPointsAt_length. exact Hi.
Qed.

(** So a snapped start point that has the coordinates of the vertex it was
    matched to is in [vertices] besides that vertex. *)
Lemma coincident_start_is_duplicated (poly : Polygon) (cut : list XY) (h : nat) :
  (1 <= length (points poly))%nat ->
  xy (startPointAt poly cut h) = sceneVertex poly (startSegmentIndexOf poly cut) ->
  exists v : Obj,
    In v (verticesAt poly cut h) /\
    In (startPointAt poly cut h) (verticesAt poly cut h) /\
    v <> startPointAt poly cut h /\
    xy v = xy (startPointAt poly cut h).
Proof.
  intros Hn Hxy.
  pose proof (segmentIndex_lt poly (cutStart cut) Hn) as Hlt.
  fold (startSegmentIndexOf poly cut) in Hlt.
  assert (Hin : In (nth (startSegmentIndexOf poly cut) (polyPointsAt poly h)
                      (mkObj 0 Point.origin)) (polyPointsAt poly h)).
  { apply nth_In. rewrite polyPointsAt_length. exact Hlt. }
  exists (nth (startSegmentIndexOf poly cut) (polyPointsAt poly h)
            (mkObj 0 Point.origin)).
  repeat split.
  - rewrite verticesAt_weave. apply weave_incl, Hin.
  - apply startPointAt_In, Hn.
  - intros Heq. apply (polyPointsAt_fresh poly cut h) in Hin.
    destruct Hin as [Hs _]. apply Hs. rewrite Heq. reflexivity.
  - rewrite polyPointsAt_nth by exact Hlt. symmetry. exact Hxy.
Qed.

(** C4, on the code: the cut of the square from its corner (0,0) to its
    corner (300,300) snaps onto vertex 0 and onto vertex 2, and each of the
    two snapped points is pushed after the vertex it is equal to: the
    corners (0,0) and (300,300) are twice in [vertices], and twice in a
    row in the shapes returned. *)
Theorem cutPolygon_diagonal_cut_duplicates (h : nat) :
  xy (startPointAt square diagonalCut h)
    = sceneVertex square (startSegmentIndexOf square diagonalCut) /\
  xy (endPointAt square diagonalCut h)
    = sceneVertex square (endSegmentIndexOf square diagonalCut) /\
  map xy (verticesAt square diagonalCut h) =
    [mkXY 0 0; mkXY 0 0; mkXY 300 0; mkXY 300 300; mkXY 300 300; mkXY 0 300] /\
  cutPolygon square diagonalCut h =
    (Returns ([mkXY 0 0; mkXY 300 0; mkXY 300 300; mkXY 300 300],
              [mkXY 300 300; mkXY 0 300; mkXY 0 0; mkXY 0 0]),
     (h + 6)%nat).
Proof.
  split; [| split; [| split]].
  - unfold diagonalCut. eval_snaps. rewrite square_snap_0_0.
    cbn [closestPointOnPoly segmentIndex xy]. rewrite Point_new_Some.
    unfold sceneVertex, vertex, offset, square. cbn [points nth left top].
    reflexivity.
  - unfold diagonalCut. eval_snaps. rewrite square_snap_300_300.
    cbn [closestPointOnPoly segmentIndex xy]. rewrite Point_new_Some.
    unfold sceneVertex, vertex, offset, square. cbn [points nth left top].
    reflexivity.
  - rewrite verticesAt_weave. unfold diagonalCut. eval_snaps.
    rewrite square_snap_0_0, square_snap_300_300.
    unfold square. eval_vertices. cbn [map xy].
    repeat f_equal; lra.
  - rewrite cutPolygon_run by (cbn [diagonalCut length]; lia).
    rewrite verticesAt_weave. unfold diagonalCut. eval_snaps.
    rewrite square_snap_0_0, square_snap_300_300.
    unfold square. eval_vertices. eval_assemble.
    same_result.
Qed.

(** C9. Cutting the square along the vertical cut from (150,0) to (150,300)
    returns two loops of four vertices: the rectangle from (150,0) to
    (300,300) and the rectangle from (0,0) to (150,300), each 150 by 300.
    Every point of the square is in one of the two, the two have only
    points of the cut line in common, and their areas add up to the area
    of the square. *)
Theorem cutPolygon_square_vertical_cut (h : nat) :
  cutPolygon square verticalCut h =
    (Returns ([mkXY 150 0; mkXY 300 0; mkXY 300 300; mkXY 150 300],
              [mkXY 150 300; mkXY 0 300; mkXY 0 0; mkXY 150 0]),
     (h + 6)%nat) /\
  rectangle_loop 150 300 0 300
    [mkXY 150 0; mkXY 300 0; mkXY 300 300; mkXY 150 300] /\
  rectangle_loop 0 150 0 300
    [mkXY 150 300; mkXY 0 300; mkXY 0 0; mkXY 150 0] /\
  (300 - 150 = 150 /\ 150 - 0 = 150 /\ 300 - 0 = 300) /\
  twice_area [mkXY 150 0; mkXY 300 0; mkXY 300 300; mkXY 150 300]
    = 2 * (150 * 300) /\
  twice_area [mkXY 150 300; mkXY 0 300; mkXY 0 0; mkXY 150 0]
    = 2 * (150 * 300) /\
  twice_area (points square) = 2 * (150 * 300) + 2 * (150 * 300) /\
  (forall p : XY,
     in_rectangle 0 300 0 300 p <->
     in_rectangle 150 300 0 300 p \/ in_rectangle 0 150 0 300 p) /\
  (forall p : XY,
     in_rectangle 150 300 0 300 p /\ in_rectangle 0 150 0 300 p <->
     x p = 150 /\ 0 <= y p <= 300).
Proof.
  split; [| split; [| split; [| split; [| split; [| split; [| split; [| split]]]]]]].
  - rewrite cutPolygon_run by (cbn [verticalCut length]; lia).
    rewrite verticesAt_weave. unfold verticalCut. eval_snaps.
    rewrite square_snap_150_0, square_snap_150_300.
    unfold square. eval_vertices. eval_assemble.
    same_result.
  - exists 0%nat. reflexivity.
  - exists 2%nat. reflexivity.
  - lra.
  - cbn [twice_area shoelace x y]. lra.
  - cbn [twice_area shoelace x y]. lra.
  - cbn [square points twice_area shoelace x y]. lra.
  - intros p. unfold in_rectangle.
    destruct (Rle_dec 150 (x p)); split; intros; lra.
  - intros p. unfold in_rectangle. split; intros; lra.
Qed.

(** * Part IV: more on the engine *)

(** ** The closest point *)

Lemma euclidean_distance_zero (p q : XY) :
  euclidean_distance p q = 0 -> p = q.
Proof.
  unfold euclidean_distance. intros H.
  pose proof (Rle_0_sqr (x p - x q)) as Hx.
  pose proof (Rle_0_sqr (y p - y q)) as Hy.
  unfold Rsqr in Hx, Hy.
  apply sqrt_eq_0 in H; [| lra].
  assert (Hx0 : (x p - x q) * (x p - x q) = 0) by lra.
  assert (Hy0 : (y p - y q) * (y p - y q) = 0) by lra.
  apply Rmult_integral in Hx0. apply Rmult_integral in Hy0.
  apply XY_eq; lra.
Qed.

Lemma euclidean_distance_sym (p q : XY) :
  euclidean_distance p q = euclidean_distance q p.
Proof. unfold euclidean_distance. f_equal. lra. Qed.


Lemma euclidean_distance_le (c p q : XY) :
  (x c - x p) * (x c - x p) + (y c - y p) * (y c - y p)
  <= (x c - x q) * (x c - x q) + (y c - y q) * (y c - y q) ->
  euclidean_distance c p <= euclidean_distance c q.
Proof. intros H. unfold euclidean_distance. apply sqrt_le_1_alt, H. Qed.

(** The equation that defines the projection parameter. *)
Lemma projection_parameter_eq (a b c : XY) :
  a <> b ->
  projection_parameter a b c * norm_sq (Point.subtract b a) =
  dot_product (Point.subtract c a) (Point.subtract b a).
Proof.
  intros Hne. unfold projection_parameter.
  field. apply nondegenerate_len_sq, Hne.
Qed.

(** The three cases of the clamp, on the squares of the distances: [t] is
    the projection parameter, [s] the parameter of another point. *)
Lemma clamp_before_is_closest (u v m n s t : R) :
  0 <= s <= 1 -> t < 0 ->
  t * (m * m + n * n) = u * m + v * n ->
  u * u + v * v <= (u - s * m) * (u - s * m) + (v - s * n) * (v - s * n).
Proof.
  intros Hs Ht Heq.
  assert (HL : 0 <= m * m + n * n)
    by (pose proof (Rle_0_sqr m); pose proof (Rle_0_sqr n); unfold Rsqr in *; lra).
  assert (H1 : 0 <= s * (- t) * (m * m + n * n))
    by (apply Rmult_le_pos; [apply Rmult_le_pos; lra | exact HL]).
  assert (H2 : 0 <= s * s * (m * m + n * n))
    by (apply Rmult_le_pos; [apply Rmult_le_pos; lra | exact HL]).
  assert (H3 : s * (t * (m * m + n * n)) = s * (u * m + v * n))
    by (rewrite Heq; reflexivity).
  lra.
Qed.

Lemma clamp_after_is_closest (u v m n s t : R) :
  0 <= s <= 1 -> 1 < t ->
  t * (m * m + n * n) = u * m + v * n ->
  (u - m) * (u - m) + (v - n) * (v - n)
  <= (u - s * m) * (u - s * m) + (v - s * n) * (v - s * n).
Proof.
  intros Hs Ht Heq.
  assert (HL : 0 <= m * m + n * n)
    by (pose proof (Rle_0_sqr m); pose proof (Rle_0_sqr n); unfold Rsqr in *; lra).
  assert (H1 : 0 <= (1 - s) * (t - 1) * (m * m + n * n))
    by (apply Rmult_le_pos; [apply Rmult_le_pos; lra | exact HL]).
  assert (H2 : 0 <= (1 - s) * (1 - s) * (m * m + n * n))
    by (apply Rmult_le_pos; [apply Rmult_le_pos; lra | exact HL]).
  assert (H3 : (1 - s) * (t * (m * m + n * n)) = (1 - s) * (u * m + v * n))
    by (rewrite Heq; reflexivity).
  lra.
Qed.

Lemma clamp_between_is_closest (u v m n s t : R) :
  t * (m * m + n * n) = u * m + v * n ->
  (u - t * m) * (u - t * m) + (v - t * n) * (v - t * n)
  <= (u - s * m) * (u - s * m) + (v - s * n) * (v - s * n).
Proof.
  intros Heq.
  assert (HL : 0 <= m * m + n * n)
    by (pose proof (Rle_0_sqr m); pose proof (Rle_0_sqr n); unfold Rsqr in *; lra).
  assert (H1 : 0 <= (s - t) * (s - t) * (m * m + n * n))
    by (apply Rmult_le_pos; [apply Rle_0_sqr | exact HL]).
  assert (H3 : (s - t) * (t * (m * m + n * n)) = (s - t) * (u * m + v * n))
    by (rewrite Heq; reflexivity).
  lra.
Qed.

(** No point of the segment is nearer to the query point than the point
    [closestPointOnSegment] returns. *)
Lemma closestPointOnSegment_least (a b c p : XY) :
  on_segment a b p ->
  snd (closestPointOnSegment a b c) <= euclidean_distance c p.
Proof.
  intros [s [Hs ->]].
  destruct (Point_eq_spec a b) as [<- | Hne].
  - rewrite closestPointOnSegment_degenerate. cbn [snd].
    replace (lerp a a s) with a by (apply XY_eq; cbn [lerp x y]; lra).
    lra.
  - pose proof (projection_parameter_eq a b c Hne) as Ht.
    unfold norm_sq, dot_product, Point.subtract in Ht. cbn [x y] in Ht.
    destruct (Rlt_dec (projection_parameter a b c) 0) as [H0 | H0].
    + rewrite closestPointOnSegment_before by assumption. cbn [snd].
      apply euclidean_distance_le. cbn [lerp x y].
      replace (x c - (x a + s * (x b - x a)))
        with ((x c - x a) - s * (x b - x a)) by lra.
      replace (y c - (y a + s * (y b - y a)))
        with ((y c - y a) - s * (y b - y a)) by lra.
      apply (clamp_before_is_closest _ _ _ _ s (projection_parameter a b c));
        assumption.
    + destruct (Rlt_dec 1 (projection_parameter a b c)) as [H1 | H1].
      * rewrite closestPointOnSegment_after by assumption. cbn [snd].
        apply euclidean_distance_le. cbn [lerp x y].
        replace (x c - x b) with ((x c - x a) - (x b - x a)) by lra.
        replace (y c - y b) with ((y c - y a) - (y b - y a)) by lra.
        replace (x c - (x a + s * (x b - x a)))
          with ((x c - x a) - s * (x b - x a)) by lra.
        replace (y c - (y a + s * (y b - y a)))
          with ((y c - y a) - s * (y b - y a)) by lra.
        apply (clamp_after_is_closest _ _ _ _ s (projection_parameter a b c));
          assumption.
      * rewrite closestPointOnSegment_between by (assumption || lra).
        cbn [snd]. apply euclidean_distance_le. cbn [lerp x y].
        replace (x c - (x a + projection_parameter a b c * (x b - x a)))
          with ((x c - x a) - projection_parameter a b c * (x b - x a)) by lra.
        replace (y c - (y a + projection_parameter a b c * (y b - y a)))
          with ((y c - y a) - projection_parameter a b c * (y b - y a)) by lra.
        replace (x c - (x a + s * (x b - x a)))
          with ((x c - x a) - s * (x b - x a)) by lra.
        replace (y c - (y a + s * (y b - y a)))
          with ((y c - y a) - s * (y b - y a)) by lra.
        apply clamp_between_is_closest. assumption.
Qed.


(** A query point on the segment is returned as it is, at distance 0. *)
Lemma closestPointOnSegment_fixes_segment (a b c : XY) :
  on_segment a b c -> closestPointOnSegment a b c = (c, 0).
Proof.
  intros Hc.
  pose proof (closestPointOnSegment_least a b c c Hc) as Hle.
  rewrite euclidean_distance_refl in Hle.
  pose proof (closestPointOnSegment_distance_nonneg a b c) as Hge.
  assert (Hd : snd (closestPointOnSegment a b c) = 0) by lra.
  pose proof (closestPointOnSegment_distance a b c) as Hdist.
  rewrite Hd in Hdist. symmetry in Hdist.
  apply euclidean_distance_zero in Hdist.
  rewrite (surjective_pairing (closestPointOnSegment a b c)), Hd, <- Hdist.
  reflexivity.
Qed.










(** ** Snapping twice *)







(** ** The offset of the polygon *)

















(** ** What the two shapes are made of *)

Section Decompose.

Variables (startPoint endPoint : Obj) (startSegmentIndex endSegmentIndex : nat).

Let pushes (v : Obj) (i : nat) : list Obj :=
  inserted v startPoint startSegmentIndex endPoint endSegmentIndex i.

Lemma pushes_none (v : Obj) (i : nat) :
  startSegmentIndex <> i -> endSegmentIndex <> i -> pushes v i = [].
Proof.
  intros Hs He. unfold pushes, inserted.
  destruct (Nat.eqb_spec startSegmentIndex i); [contradiction |].
  destruct (Nat.eqb_spec endSegmentIndex i); [contradiction |].
  reflexivity.
Qed.

Lemma pushes_start (v : Obj) (i : nat) :
  startSegmentIndex = i -> endSegmentIndex <> i -> pushes v i = [startPoint].
Proof.
  intros Hs He. unfold pushes, inserted.
  destruct (Nat.eqb_spec startSegmentIndex i); [| contradiction].
  destruct (Nat.eqb_spec endSegmentIndex i); [contradiction |].
  reflexivity.
Qed.

Lemma pushes_end (v : Obj) (i : nat) :
  startSegmentIndex <> i -> endSegmentIndex = i -> pushes v i = [endPoint].
Proof.
  intros Hs He. unfold pushes, inserted.
  destruct (Nat.eqb_spec startSegmentIndex i); [contradiction |].
  destruct (Nat.eqb_spec endSegmentIndex i); [| contradiction].
  reflexivity.
Qed.

Lemma pushes_both (v : Obj) (i : nat) :
  startSegmentIndex = i -> endSegmentIndex = i ->
  pushes v i = [startPoint; endPoint] \/ pushes v i = [endPoint; startPoint].
Proof.
  intros Hs He. unfold pushes, inserted.
  destruct (Nat.eqb_spec startSegmentIndex i); [| contradiction].
  destruct (Nat.eqb_spec endSegmentIndex i); [| contradiction].
  cbn [andb]. destruct (Number.ltb _ _); [left | right]; reflexivity.
Qed.

Lemma weave_start_only (l : list Obj) :
  forall k,
    (endSegmentIndex < k)%nat ->
    (k <= startSegmentIndex < k + length l)%nat ->
    exists A C, weave l k pushes = A ++ startPoint :: C /\ l = A ++ C.
Proof.
  induction l as [| v l IH]; intros k He Hs; [cbn [length] in Hs; lia |].
  cbn [weave]. destruct (Nat.eq_dec startSegmentIndex k) as [Heq | Hne].
  - rewrite pushes_start by lia.
    rewrite weave_nothing by (intros w j Hj; apply pushes_none; lia).
    exists [v], l. split; reflexivity.
  - rewrite pushes_none by lia.
    destruct (IH (S k) ltac:(lia) ltac:(cbn [length] in Hs; lia)) as [A [C [Hw Hl]]].
    exists (v :: A), C. cbn [app]. rewrite Hw, Hl. split; reflexivity.
Qed.

Lemma weave_end_only (l : list Obj) :
  forall k,
    (startSegmentIndex < k)%nat ->
    (k <= endSegmentIndex < k + length l)%nat ->
    exists A C, weave l k pushes = A ++ endPoint :: C /\ l = A ++ C.
Proof.
  induction l as [| v l IH]; intros k Hs He; [cbn [length] in He; lia |].
  cbn [weave]. destruct (Nat.eq_dec endSegmentIndex k) as [Heq | Hne].
  - rewrite pushes_end by lia.
    rewrite weave_nothing by (intros w j Hj; apply pushes_none; lia).
    exists [v], l. split; reflexivity.
  - rewrite pushes_none by lia.
    destruct (IH (S k) ltac:(lia) ltac:(cbn [length] in He; lia)) as [A [C [Hw Hl]]].
    exists (v :: A), C. cbn [app]. rewrite Hw, Hl. split; reflexivity.
Qed.

(** The array [vertices] is the polygon's vertices with the two snapped
    points put in, in one order or the other. *)
Lemma weave_both (l : list Obj) :
  forall k,
    (k <= startSegmentIndex < k + length l)%nat ->
    (k <= endSegmentIndex < k + length l)%nat ->
    exists A B C X Y,
      weave l k pushes = A ++ X :: B ++ Y :: C /\
      l = A ++ B ++ C /\
      ((X = startPoint /\ Y = endPoint) \/ (X = endPoint /\ Y = startPoint)).
Proof.
  induction l as [| v l IH]; intros k Hs He; [cbn [length] in Hs; lia |].
  cbn [weave]. cbn [length] in Hs, He.
  destruct (Nat.eq_dec startSegmentIndex k) as [Hsk | Hsk];
    destruct (Nat.eq_dec endSegmentIndex k) as [Hek | Hek].
  - rewrite weave_nothing by (intros w j Hj; apply pushes_none; lia).
    destruct (pushes_both v k Hsk Hek) as [Hp | Hp]; rewrite Hp.
    + exists [v], [], l, startPoint, endPoint.
      repeat split; auto.
    + exists [v], [], l, endPoint, startPoint.
      repeat split; auto.
  - rewrite pushes_start by assumption.
    destruct (weave_end_only l (S k) ltac:(lia) ltac:(lia)) as [A [C [Hw Hl]]].
    exists [v], A, C, startPoint, endPoint. cbn [app]. rewrite Hw, Hl.
    repeat split; auto.
  - rewrite pushes_end by assumption.
    destruct (weave_start_only l (S k) ltac:(lia) ltac:(lia)) as [A [C [Hw Hl]]].
    exists [v], A, C, endPoint, startPoint. cbn [app]. rewrite Hw, Hl.
    repeat split; auto.
  - rewrite pushes_none by assumption.
    destruct (IH (S k) ltac:(lia) ltac:(lia)) as [A [B [C [X [Y [Hw [Hl HXY]]]]]]].
    exists (v :: A), B, C, X, Y. cbn [app]. rewrite Hw, Hl.
    repeat split; auto.
Qed.

End Decompose.

Lemma verticesAt_decompose (poly : Polygon) (cut : list XY) (h : nat) :
  (1 <= length (points poly))%nat ->
  exists A B C X Y,
    verticesAt poly cut h = A ++ X :: B ++ Y :: C /\
    polyPointsAt poly h = A ++ B ++ C /\
    ((X = startPointAt poly cut h /\ Y = endPointAt poly cut h) \/
     (X = endPointAt poly cut h /\ Y = startPointAt poly cut h)).
Proof.
  intros Hn. rewrite verticesAt_weave.
  apply weave_both; rewrite polyPointsAt_length;
    split; try lia; apply segmentIndex_lt, Hn.
Qed.

(** *** [indexOf] and [slice] on an array given in pieces *)

Lemma indexOf_from_skip (A l : list Obj) (o : Obj) :
  (forall v, In v A -> addr v <> addr o) ->
  forall k, indexOf_from (A ++ l) o k = indexOf_from l o (k + Z.of_nat (length A))%Z.
Proof.
  induction A as [| a A IH]; intros Hfresh k.
  - cbn [app length Z.of_nat]. f_equal. lia.
  - cbn [app indexOf_from]. unfold same_object.
    destruct (Nat.eqb_spec (addr a) (addr o)) as [Heq | _].
    + exfalso. apply (Hfresh a); [left; reflexivity | exact Heq].
    + rewrite IH by (intros v Hv; apply Hfresh; right; exact Hv).
      f_equal. cbn [length]. lia.
Qed.

Lemma indexOf_from_here (l : list Obj) (o : Obj) (k : Z) :
  indexOf_from (o :: l) o k = k.
Proof. cbn [indexOf_from]. unfold same_object. rewrite Nat.eqb_refl. reflexivity. Qed.

Lemma slice_pieces {T : Type} (A M C : list T) :
  slice (A ++ M ++ C) (Z.of_nat (length A)) (Z.of_nat (length A + length M)) = M.
Proof.
  rewrite slice_nat by (rewrite !length_app; lia).
  rewrite skipn_app, skipn_all, Nat.sub_diag. cbn [skipn app].
  replace (length A + length M - length A)%nat with (length M) by lia.
  rewrite firstn_app, firstn_all, Nat.sub_diag. cbn [firstn].
  apply app_nil_r.
Qed.

Section Assemble.

Variables (A B C : list Obj) (startPoint endPoint : Obj) (cut : list XY).

Hypothesis start_fresh :
  forall v, In v (A ++ B ++ C) -> addr v <> addr startPoint.
Hypothesis end_fresh :
  forall v, In v (A ++ B ++ C) -> addr v <> addr endPoint.
Hypothesis start_end : addr startPoint <> addr endPoint.

Lemma fresh_in_A (o : Obj) :
  (forall v, In v (A ++ B ++ C) -> addr v <> addr o) ->
  forall v, In v A -> addr v <> addr o.
Proof. intros H v Hv. apply H. apply in_or_app. left. exact Hv. Qed.

Lemma fresh_in_B (o : Obj) :
  (forall v, In v (A ++ B ++ C) -> addr v <> addr o) ->
  forall v, In v B -> addr v <> addr o.
Proof.
  intros H v Hv. apply H. apply in_or_app. right. apply in_or_app. left. exact Hv.
Qed.

Lemma indexOf_first (X Y : Obj) :
  (forall v, In v (A ++ B ++ C) -> addr v <> addr X) ->
  indexOf (A ++ X :: B ++ Y :: C) X = Z.of_nat (length A).
Proof.
  intros HX. unfold indexOf.
  rewrite indexOf_from_skip by (apply fresh_in_A, HX).
  rewrite indexOf_from_here. lia.
Qed.

Lemma indexOf_second (X Y : Obj) :
  (forall v, In v (A ++ B ++ C) -> addr v <> addr Y) ->
  addr X <> addr Y ->
  indexOf (A ++ X :: B ++ Y :: C) Y = Z.of_nat (length A + 1 + length B).
Proof.
  intros HY HXY. unfold indexOf.
  rewrite indexOf_from_skip by (apply fresh_in_A, HY).
  cbn [indexOf_from]. unfold same_object.
  destruct (Nat.eqb_spec (addr X) (addr Y)) as [Heq | _]; [contradiction |].
  rewrite indexOf_from_skip by (apply fresh_in_B, HY).
  rewrite indexOf_from_here. lia.
Qed.

(** The three slices of an array [A ++ X :: B ++ Y :: C]. *)
Lemma slice_between (X Y : Obj) :
  slice (A ++ X :: B ++ Y :: C) (Z.of_nat (length A))
    (Z.of_nat (length A + 1 + length B) + 1)
  = X :: B ++ [Y].
Proof.
  replace (A ++ X :: B ++ Y :: C) with (A ++ (X :: B ++ [Y]) ++ C)
    by (cbn [app]; rewrite <- app_assoc; reflexivity).
  replace (Z.of_nat (length A + 1 + length B) + 1)%Z
    with (Z.of_nat (length A + length (X :: B ++ [Y])))
    by (cbn [length]; rewrite length_app; cbn [length]; lia).
  apply slice_pieces.
Qed.

Lemma slice_after (X Y : Obj) :
  slice (A ++ X :: B ++ Y :: C) (Z.of_nat (length A + 1 + length B))
    (Z.of_nat (length (A ++ X :: B ++ Y :: C)))
  = Y :: C.
Proof.
  replace (A ++ X :: B ++ Y :: C) with ((A ++ X :: B) ++ (Y :: C) ++ [])
    by (rewrite app_nil_r, <- app_assoc; reflexivity).
  replace (length A + 1 + length B)%nat with (length (A ++ X :: B))
    by (rewrite length_app; cbn [length]; lia).
  replace (length ((A ++ X :: B) ++ (Y :: C) ++ []))
    with (length (A ++ X :: B) + length (Y :: C))%nat
    by (rewrite !length_app; cbn [length]; lia).
  apply slice_pieces.
Qed.

Lemma slice_before (X Y : Obj) :
  slice (A ++ X :: B ++ Y :: C) 0 (Z.of_nat (length A) + 1) = A ++ [X].
Proof.
  replace (A ++ X :: B ++ Y :: C) with ([] ++ (A ++ [X]) ++ (B ++ Y :: C))
    by (cbn [app]; rewrite <- app_assoc; reflexivity).
  change 0%Z with (Z.of_nat (length (@nil Obj))).
  replace (Z.of_nat (length (@nil Obj)) + 1)%Z with 1%Z by reflexivity.
  replace (Z.of_nat (length A) + 1)%Z
    with (Z.of_nat (length (@nil Obj) + length (A ++ [X])))
    by (rewrite length_app; cbn [length]; lia).
  apply slice_pieces.
Qed.

Lemma assemble_start_first :
  assemble (A ++ startPoint :: B ++ endPoint :: C) startPoint endPoint cut =
  (map xy (startPoint :: B ++ [endPoint]) ++ rev (interior cut),
   map xy ((endPoint :: C) ++ A ++ [startPoint]) ++ interior cut).
Proof.
  unfold assemble.
  rewrite (indexOf_first startPoint endPoint start_fresh).
  rewrite (indexOf_second startPoint endPoint end_fresh start_end).
  destruct (Z.ltb_spec (Z.of_nat (length A)) (Z.of_nat (length A + 1 + length B)))
    as [_ | Hge]; [| lia].
  rewrite slice_between, slice_after, slice_before, slice_interior.
  reflexivity.
Qed.

Lemma assemble_end_first :
  assemble (A ++ endPoint :: B ++ startPoint :: C) startPoint endPoint cut =
  (map xy ((startPoint :: C) ++ A ++ [endPoint]) ++ rev (interior cut),
   map xy (endPoint :: B ++ [startPoint]) ++ interior cut).
Proof.
  unfold assemble.
  rewrite (indexOf_first endPoint startPoint end_fresh).
  rewrite (indexOf_second endPoint startPoint start_fresh)
    by (intros H; apply start_end; symmetry; exact H).
  destruct (Z.ltb_spec (Z.of_nat (length A + 1 + length B)) (Z.of_nat (length A)))
    as [Hlt | _]; [lia |].
  rewrite slice_between, slice_after, slice_before, slice_interior.
  reflexivity.
Qed.

End Assemble.

Lemma skipn_exact {T : Type} (l1 l2 : list T) : skipn (length l1) (l1 ++ l2) = l2.
Proof. induction l1 as [| a l1 IH]; [reflexivity | exact IH]. Qed.

Lemma firstn_exact {T : Type} (l1 l2 : list T) : firstn (length l1) (l1 ++ l2) = l1.
Proof. induction l1 as [| a l1 IH]; [reflexivity | cbn; rewrite IH; reflexivity]. Qed.

(** The two shapes of a cut.  The first is the snapped start point, an arc
    of polygon vertices, the snapped end point and the interior of the cut
    backwards; the second is the snapped end point, the other arc, the
    snapped start point and the interior of the cut forwards.  The two arcs
    together are the polygon's vertices in scene coordinates, in their
    order round the polygon: every vertex is in one shape and in one
    only. *)
Lemma cutPolygon_shapes_of (poly : Polygon) (cut : list XY) (h : nat) :
  (1 <= length (points poly))%nat ->
  (2 <= length cut)%nat ->
  exists (arc1 arc2 : list XY) (k : nat),
    fst (cutPolygon poly cut h) =
      Returns
        (snappedPoint poly (cutStart cut) :: arc1
           ++ snappedPoint poly (cutEnd cut) :: rev (interior cut),
         snappedPoint poly (cutEnd cut) :: arc2
           ++ snappedPoint poly (cutStart cut) :: interior cut) /\
    arc1 ++ arc2 =
      skipn k (map (fun p => Point.add p (offset poly)) (points poly))
      ++ firstn k (map (fun p => Point.add p (offset poly)) (points poly)).
Proof.
  intros Hn Hcut.
  destruct (verticesAt_decompose poly cut h Hn)
    as [A [B [C [X [Y [Hvs [Hpp HXY]]]]]]].
  assert (Hstart : forall v, In v (A ++ B ++ C) ->
                             addr v <> addr (startPointAt poly cut h)).
  { intros v Hv. rewrite <- Hpp in Hv. apply (polyPointsAt_fresh poly cut h v Hv). }
  assert (Hend : forall v, In v (A ++ B ++ C) ->
                           addr v <> addr (endPointAt poly cut h)).
  { intros v Hv. rewrite <- Hpp in Hv. apply (polyPointsAt_fresh poly cut h v Hv). }
  assert (Hse : addr (startPointAt poly cut h) <> addr (endPointAt poly cut h))
    by (cbn [startPointAt endPointAt addr]; lia).
  assert (HV : map (fun p => Point.add p (offset poly)) (points poly)
               = map xy A ++ map xy B ++ map xy C).
  { rewrite <- polyPointsAt_xy with (h := h). rewrite Hpp, !map_app. reflexivity. }
  rewrite cutPolygon_run by exact Hcut. cbn [fst]. rewrite Hvs, HV.
  destruct HXY as [[-> ->] | [-> ->]].
  - exists (map xy B), (map xy C ++ map xy A), (length (map xy A)).
    rewrite (assemble_start_first A B C _ _ cut Hstart Hend Hse).
    rewrite skipn_exact, firstn_exact. split; [| rewrite <- !app_assoc; reflexivity].
    cbn [map app startPointAt endPointAt xy].
    rewrite !map_app. cbn [map app startPointAt endPointAt xy].
    rewrite <- !app_assoc. reflexivity.
  - exists (map xy C ++ map xy A), (map xy B), (length (map xy A ++ map xy B)).
    rewrite (assemble_end_first A B C _ _ cut Hstart Hend Hse).
    rewrite (app_assoc (map xy A)), skipn_exact, firstn_exact.
    split; [| rewrite <- !app_assoc; reflexivity].
    cbn [map app startPointAt endPointAt xy].
    rewrite !map_app. cbn [map app startPointAt endPointAt xy].
    rewrite <- !app_assoc. reflexivity.
Qed.


Lemma slice_nil {T : Type} (i j : Z) : slice (@nil T) i j = [].
Proof. unfold slice. rewrite skipn_nil. apply firstn_nil. Qed.

(** A polygon without vertices: nothing is gathered, [indexOf] answers -1
    twice, and the two shapes are the interior of the cut, backwards and
    forwards, without the snapped points. *)
Theorem cutPolygon_no_vertices (poly : Polygon) (cut : list XY) (h : nat) :
  points poly = [] ->
  (2 <= length cut)%nat ->
  cutPolygon poly cut h =
    (Returns (rev (interior cut), interior cut), (h + 2)%nat).
Proof.
  intros Hps Hcut. rewrite cutPolygon_run by exact Hcut.
  unfold verticesAt, polyPointsAt. rewrite Hps.
  cbn [map allocated gatherVertices length seq fold_left].
  unfold assemble, indexOf. cbn [indexOf_from].
  rewrite !slice_nil. change (-1 <? -1)%Z with false. cbn [map app].
  rewrite slice_interior. fold (interior cut).
  f_equal. lia.
Qed.

Lemma cutPolygon_no_vertices_witness :
  cutPolygon (mkPolygon [] 0 0) [mkXY 1 1; mkXY 2 2; mkXY 3 3] 0%nat =
    (Returns (rev (interior [mkXY 1 1; mkXY 2 2; mkXY 3 3]),
              interior [mkXY 1 1; mkXY 2 2; mkXY 3 3]), 2%nat).
Proof.
  apply (cutPolygon_no_vertices (mkPolygon [] 0 0)
           [mkXY 1 1; mkXY 2 2; mkXY 3 3] 0%nat).
  - reflexivity.
  - cbn [length]. lia.
Defined.

(** * Part V: the canvas component *)















(** * Part VI: which vertices go to which shape *)

Lemma weave_nothing_within (g : Obj -> nat -> list Obj) (l : list Obj) :
  forall k,
    (forall v j, (k <= j < k + length l)%nat -> g v j = []) ->
    weave l k g = l.
Proof.
  induction l as [| v l IH]; intros k Hg; [reflexivity |].
  cbn [weave]. rewrite Hg by (cbn [length]; lia). cbn [app].
  rewrite IH; [reflexivity |].
  intros w j Hj. apply Hg. cbn [length]. lia.
Qed.

Lemma weave_one_at (g : Obj -> nat -> list Obj) (o : Obj) (i : nat) (l : list Obj) :
  forall k,
    (forall v, g v i = [o]) ->
    (forall v j, (k <= j < k + length l)%nat -> j <> i -> g v j = []) ->
    (k <= i < k + length l)%nat ->
    weave l k g = firstn (i - k + 1) l ++ o :: skipn (i - k + 1) l.
Proof.
  induction l as [| v l IH]; intros k Hat Hnone Hi; [cbn [length] in Hi; lia |].
  cbn [weave]. cbn [length] in Hi, Hnone.
  destruct (Nat.eq_dec i k) as [-> | Hne].
  - rewrite Hat, Nat.sub_diag. cbn [Nat.add firstn skipn app].
    rewrite weave_nothing_within; [reflexivity |].
    intros w j Hj. apply Hnone; lia.
  - rewrite Hnone by lia. cbn [app].
    rewrite (IH (S k)); [| exact Hat | intros w j Hj; apply Hnone; lia | lia].
    replace (i - k + 1)%nat with (S (i - S k + 1)) by lia.
    reflexivity.
Qed.

Lemma weave_split (g : Obj -> nat -> list Obj) (m : nat) :
  forall (l : list Obj) (k : nat),
    weave l k g = weave (firstn m l) k g ++ weave (skipn m l) (k + m) g.
Proof.
  induction m as [| m IHm]; intros l k.
  - cbn [firstn skipn weave app]. rewrite Nat.add_0_r. reflexivity.
  - destruct l as [| v l]; [reflexivity |].
    cbn [firstn skipn weave]. rewrite (IHm l (S k)).
    cbn [app]. rewrite app_assoc.
    replace (k + S m)%nat with (S k + m)%nat by lia. reflexivity.
Qed.

(** Two points pushed after two different vertices, [o1] after vertex [i1]
    and [o2] after the later vertex [i2]. *)
Lemma weave_two_at (g : Obj -> nat -> list Obj) (o1 o2 : Obj) (i1 i2 : nat)
    (l : list Obj) :
  (i1 < i2 < length l)%nat ->
  (forall v, g v i1 = [o1]) ->
  (forall v, g v i2 = [o2]) ->
  (forall v j, j <> i1 -> j <> i2 -> g v j = []) ->
  weave l 0 g =
    firstn (i1 + 1) l ++ o1 :: firstn (i2 - i1) (skipn (i1 + 1) l)
    ++ o2 :: skipn (i2 + 1) l.
Proof.
  intros Hi H1 H2 Hnone.
  rewrite (weave_split g (i1 + 1)%nat l 0%nat).
  rewrite (weave_one_at g o1 i1 (firstn (i1 + 1) l) 0).
  - rewrite (weave_one_at g o2 i2 (skipn (i1 + 1) l) (0 + (i1 + 1))).
    + rewrite Nat.sub_0_r.
      rewrite firstn_firstn, Nat.min_id.
      rewrite skipn_firstn_comm, Nat.sub_diag. cbn [firstn].
      replace (i2 - (0 + (i1 + 1)) + 1)%nat with (i2 - i1)%nat by lia.
      rewrite skipn_skipn.
      replace (i2 - i1 + (i1 + 1))%nat with (i2 + 1)%nat by lia.
      rewrite <- app_assoc. reflexivity.
    + exact H2.
    + intros v j Hj Hne. apply Hnone; lia.
    + rewrite length_skipn. lia.
  - exact H1.
  - intros v j Hj Hne. rewrite length_firstn in Hj. apply Hnone; lia.
  - rewrite length_firstn. lia.
Qed.

Lemma three_pieces {T : Type} (l : list T) (i1 i2 : nat) :
  (i1 < i2)%nat ->
  l = firstn (i1 + 1) l ++ firstn (i2 - i1) (skipn (i1 + 1) l) ++ skipn (i2 + 1) l.
Proof.
  intros Hi.
  rewrite <- (firstn_skipn (i1 + 1) l) at 1. f_equal.
  rewrite <- (firstn_skipn (i2 - i1) (skipn (i1 + 1) l)) at 1. f_equal.
  rewrite skipn_skipn. f_equal. lia.
Qed.

(** When the two ends of the cut are snapped onto two different edges, the
    first shape takes the vertices after the start point's edge up to the
    end point's edge, and the second shape takes the vertices after the
    end point's edge, round the end of the array, up to the start point's
    edge: each shape follows the boundary from one snapped point to the
    other. *)
Theorem cutPolygon_shapes_by_edge (poly : Polygon) (cut : list XY) (h : nat) :
  (1 <= length (points poly))%nat ->
  (2 <= length cut)%nat ->
  ((startSegmentIndexOf poly cut < endSegmentIndexOf poly cut)%nat ->
   fst (cutPolygon poly cut h) =
     Returns
       (snappedPoint poly (cutStart cut)
          :: firstn (endSegmentIndexOf poly cut - startSegmentIndexOf poly cut)
               (skipn (startSegmentIndexOf poly cut + 1)
                  (map (fun p => Point.add p (offset poly)) (points poly)))
          ++ snappedPoint poly (cutEnd cut) :: rev (interior cut),
        snappedPoint poly (cutEnd cut)
          :: (skipn (endSegmentIndexOf poly cut + 1)
                (map (fun p => Point.add p (offset poly)) (points poly))
              ++ firstn (startSegmentIndexOf poly cut + 1)
                   (map (fun p => Point.add p (offset poly)) (points poly)))
          ++ snappedPoint poly (cutStart cut) :: interior cut)) /\
  ((endSegmentIndexOf poly cut < startSegmentIndexOf poly cut)%nat ->
   fst (cutPolygon poly cut h) =
     Returns
       (snappedPoint poly (cutStart cut)
          :: (skipn (startSegmentIndexOf poly cut + 1)
                (map (fun p => Point.add p (offset poly)) (points poly))
              ++ firstn (endSegmentIndexOf poly cut + 1)
                   (map (fun p => Point.add p (offset poly)) (points poly)))
          ++ snappedPoint poly (cutEnd cut) :: rev (interior cut),
        snappedPoint poly (cutEnd cut)
          :: firstn (startSegmentIndexOf poly cut - endSegmentIndexOf poly cut)
               (skipn (endSegmentIndexOf poly cut + 1)
                  (map (fun p => Point.add p (offset poly)) (points poly)))
          ++ snappedPoint poly (cutStart cut) :: interior cut)).
Proof.
  intros Hn Hcut.
  pose proof (segmentIndex_lt poly (cutStart cut) Hn) as Hsi.
  pose proof (segmentIndex_lt poly (cutEnd cut) Hn) as Hei.
  fold (startSegmentIndexOf poly cut) in Hsi.
  fold (endSegmentIndexOf poly cut) in Hei.
  set (si := startSegmentIndexOf poly cut) in *.
  set (ei := endSegmentIndexOf poly cut) in *.
  assert (Hse : addr (startPointAt poly cut h) <> addr (endPointAt poly cut h))
    by (cbn [startPointAt endPointAt addr]; lia).
  split; intros Hlt.
  - pose proof (three_pieces (polyPointsAt poly h) si ei Hlt) as Hpp.
    rewrite cutPolygon_run by exact Hcut. cbn [fst].
    rewrite verticesAt_weave. fold si ei.
    rewrite (weave_two_at _ (startPointAt poly cut h) (endPointAt poly cut h) si ei).
    + rewrite assemble_start_first.
      * cbn [map app startPointAt endPointAt xy].
        rewrite !map_app. cbn [map app endPointAt startPointAt xy].
        repeat (rewrite <- firstn_map || rewrite <- skipn_map).
        rewrite !polyPointsAt_xy.
        rewrite <- !app_assoc. reflexivity.
      * intros v Hv. rewrite <- Hpp in Hv. apply (polyPointsAt_fresh poly cut h v Hv).
      * intros v Hv. rewrite <- Hpp in Hv. apply (polyPointsAt_fresh poly cut h v Hv).
      * exact Hse.
    + rewrite polyPointsAt_length. lia.
    + intros v. apply pushes_start; [reflexivity | lia].
    + intros v. apply pushes_end; [lia | reflexivity].
    + intros v j H1 H2. apply pushes_none; lia.
  - pose proof (three_pieces (polyPointsAt poly h) ei si Hlt) as Hpp.
    rewrite cutPolygon_run by exact Hcut. cbn [fst].
    rewrite verticesAt_weave. fold si ei.
    rewrite (weave_two_at _ (endPointAt poly cut h) (startPointAt poly cut h) ei si).
    + rewrite assemble_end_first.
      * cbn [map app startPointAt endPointAt xy].
        rewrite !map_app. cbn [map app endPointAt startPointAt xy].
        repeat (rewrite <- firstn_map || rewrite <- skipn_map).
        rewrite !polyPointsAt_xy.
        rewrite <- !app_assoc. reflexivity.
      * intros v Hv. rewrite <- Hpp in Hv. apply (polyPointsAt_fresh poly cut h v Hv).
      * intros v Hv. rewrite <- Hpp in Hv. apply (polyPointsAt_fresh poly cut h v Hv).
      * exact Hse.
    + rewrite polyPointsAt_length. lia.
    + intros v. apply pushes_end; [lia | reflexivity].
    + intros v. apply pushes_start; [reflexivity | lia].
    + intros v j H1 H2. apply pushes_none; lia.
Qed.

Lemma cutPolygon_shapes_by_edge_witness :
  fst (cutPolygon square verticalCut 0%nat) =
    Returns
      (snappedPoint square (cutStart verticalCut)
         :: firstn (endSegmentIndexOf square verticalCut
                    - startSegmentIndexOf square verticalCut)
              (skipn (startSegmentIndexOf square verticalCut + 1)
                 (map (fun p => Point.add p (offset square)) (points square)))
         ++ snappedPoint square (cutEnd verticalCut) :: rev (interior verticalCut),
       snappedPoint square (cutEnd verticalCut)
         :: (skipn (endSegmentIndexOf square verticalCut + 1)
               (map (fun p => Point.add p (offset square)) (points square))
             ++ firstn (startSegmentIndexOf square verticalCut + 1)
                  (map (fun p => Point.add p (offset square)) (points square)))
         ++ snappedPoint square (cutStart verticalCut) :: interior verticalCut).
Proof.
  apply (proj1 (cutPolygon_shapes_by_edge square verticalCut 0%nat
                  ltac:(cbn [square points length]; lia)
                  ltac:(cbn [verticalCut length]; lia))).
  unfold startSegmentIndexOf, endSegmentIndexOf, cutStart, cutEnd, verticalCut.
  cbn [length Nat.sub nth_error].
  rewrite !Point_new_Some, square_snap_150_0, square_snap_150_300.
  cbn [segmentIndex]. lia.
Defined.

(** * Part VII: the engine seen from its callers *)










(** The two shapes of a cut.  The first is the snapped start point, an arc
    of polygon vertices, the snapped end point and the interior of the cut
    backwards; the second is the snapped end point, the other arc, the
    snapped start point and the interior of the cut forwards.  The two arcs
    together are the polygon's vertices in scene coordinates, in their
    order round the polygon: every vertex is in one shape and in one
    only. *)
Theorem cutPolygon_shapes (poly : Polygon) (cut : list XY) (h : nat) :
  (1 <= length (points poly))%nat ->
  (2 <= length cut)%nat ->
  exists (arc1 arc2 : list XY) (k : nat),
    fst (cutPolygon poly cut h) =
      Returns
        (snappedPoint poly (cutStart cut) :: arc1
           ++ snappedPoint poly (cutEnd cut) :: rev (interior cut),
         snappedPoint poly (cutEnd cut) :: arc2
           ++ snappedPoint poly (cutStart cut) :: interior cut) /\
    arc1 ++ arc2 =
      skipn k (map (fun p => Point.add p (offset poly)) (points poly))
      ++ firstn k (map (fun p => Point.add p (offset poly)) (points poly)).
Proof. apply cutPolygon_shapes_of. Qed.

Lemma cutPolygon_shapes_witness :
  exists (arc1 arc2 : list XY) (k : nat),
    fst (cutPolygon square sameEdgeCut 0%nat) =
      Returns
        (snappedPoint square (cutStart sameEdgeCut) :: arc1
           ++ snappedPoint square (cutEnd sameEdgeCut) :: rev (interior sameEdgeCut),
         snappedPoint square (cutEnd sameEdgeCut) :: arc2
           ++ snappedPoint square (cutStart sameEdgeCut) :: interior sameEdgeCut) /\
    arc1 ++ arc2 =
      skipn k (map (fun p => Point.add p (offset square)) (points square))
      ++ firstn k (map (fun p => Point.add p (offset square)) (points square)).
Proof.
  apply (cutPolygon_shapes square sameEdgeCut 0%nat).
  - cbn [square points length]. lia.
  - cbn [sameEdgeCut length]. lia.
Defined.

(** When the two ends of the cut are snapped onto the same edge, one shape
    has no polygon vertex and the other has them all, from the vertex
    after that edge round to the vertex before it.  The shape without
    vertices is the first one when the start point is strictly nearer (in
    Manhattan distance) to the vertex the edge starts at, and the second
    one otherwise. *)
Theorem cutPolygon_shapes_same_edge (poly : Polygon) (cut : list XY) (h i : nat) :
  (1 <= length (points poly))%nat ->
  (2 <= length cut)%nat ->
  startSegmentIndexOf poly cut = i ->
  endSegmentIndexOf poly cut = i ->
  fst (cutPolygon poly cut h) =
    if Number.ltb
         (manhattan (snappedPoint poly (cutStart cut)) (sceneVertex poly i))
         (manhattan (snappedPoint poly (cutEnd cut)) (sceneVertex poly i))
    then
      Returns
        (snappedPoint poly (cutStart cut)
           :: snappedPoint poly (cutEnd cut) :: rev (interior cut),
         snappedPoint poly (cutEnd cut)
           :: (skipn (i + 1) (map (fun p => Point.add p (offset poly)) (points poly))
               ++ firstn (i + 1)
                    (map (fun p => Point.add p (offset poly)) (points poly)))
           ++ snappedPoint poly (cutStart cut) :: interior cut)
    else
      Returns
        (snappedPoint poly (cutStart cut)
           :: (skipn (i + 1) (map (fun p => Point.add p (offset poly)) (points poly))
               ++ firstn (i + 1)
                    (map (fun p => Point.add p (offset poly)) (points poly)))
           ++ snappedPoint poly (cutEnd cut) :: rev (interior cut),
         snappedPoint poly (cutEnd cut)
           :: snappedPoint poly (cutStart cut) :: interior cut).
Proof.
  intros Hn Hcut Hsi Hei.
  assert (Hi : (i < length (points poly))%nat).
  { rewrite <- Hsi. apply segmentIndex_lt, Hn. }
  assert (Hse : addr (startPointAt poly cut h) <> addr (endPointAt poly cut h))
    by (cbn [startPointAt endPointAt addr]; lia).
  assert (Hvs : verticesAt poly cut h =
            firstn (i + 1) (polyPointsAt poly h)
            ++ inserted (nth i (polyPointsAt poly h) (mkObj 0 Point.origin))
                 (startPointAt poly cut h) i (endPointAt poly cut h) i i
            ++ skipn (i + 1) (polyPointsAt poly h)).
  { rewrite verticesAt_weave, Hsi, Hei.
    rewrite (weave_single _ i).
    - rewrite Nat.sub_0_r. reflexivity.
    - intros v j Hj. unfold inserted.
      destruct (Nat.eqb_spec i j) as [-> | _]; [contradiction | reflexivity].
    - rewrite polyPointsAt_length. lia. }
  unfold inserted in Hvs. rewrite Nat.eqb_refl in Hvs. cbn [andb] in Hvs.
  rewrite polyPointsAt_nth in Hvs by exact Hi.
  cbn [startPointAt endPointAt xy] in Hvs.
  rewrite cutPolygon_run by exact Hcut. cbn [fst]. rewrite Hvs.
  destruct (Number.ltb
              (manhattan (snappedPoint poly (cutStart cut)) (sceneVertex poly i))
              (manhattan (snappedPoint poly (cutEnd cut)) (sceneVertex poly i))).
  - pose proof (assemble_start_first (firstn (i + 1) (polyPointsAt poly h)) []
                  (skipn (i + 1) (polyPointsAt poly h))
                  (startPointAt poly cut h) (endPointAt poly cut h) cut) as Hass.
    cbn [app] in Hass. cbn [app]. rewrite Hass.
    + cbn [map app startPointAt endPointAt xy].
      rewrite !map_app. cbn [map app endPointAt startPointAt xy].
      repeat (rewrite <- firstn_map || rewrite <- skipn_map).
      rewrite !polyPointsAt_xy, <- !app_assoc. reflexivity.
    + intros v Hv. rewrite firstn_skipn in Hv.
      apply (polyPointsAt_fresh poly cut h v Hv).
    + intros v Hv. rewrite firstn_skipn in Hv.
      apply (polyPointsAt_fresh poly cut h v Hv).
    + exact Hse.
  - pose proof (assemble_end_first (firstn (i + 1) (polyPointsAt poly h)) []
                  (skipn (i + 1) (polyPointsAt poly h))
                  (startPointAt poly cut h) (endPointAt poly cut h) cut) as Hass.
    cbn [app] in Hass. cbn [app]. rewrite Hass.
    + cbn [map app startPointAt endPointAt xy].
      rewrite !map_app. cbn [map app endPointAt startPointAt xy].
      repeat (rewrite <- firstn_map || rewrite <- skipn_map).
      rewrite !polyPointsAt_xy, <- !app_assoc. reflexivity.
    + intros v Hv. rewrite firstn_skipn in Hv.
      apply (polyPointsAt_fresh poly cut h v Hv).
    + intros v Hv. rewrite firstn_skipn in Hv.
      apply (polyPointsAt_fresh poly cut h v Hv).
    + exact Hse.
Qed.

Lemma cutPolygon_shapes_same_edge_witness :
  fst (cutPolygon square sameEdgeCut 0%nat) =
    if Number.ltb
         (manhattan (snappedPoint square (cutStart sameEdgeCut)) (sceneVertex square 0))
         (manhattan (snappedPoint square (cutEnd sameEdgeCut)) (sceneVertex square 0))
    then
      Returns
        (snappedPoint square (cutStart sameEdgeCut)
           :: snappedPoint square (cutEnd sameEdgeCut) :: rev (interior sameEdgeCut),
         snappedPoint square (cutEnd sameEdgeCut)
           :: (skipn (0 + 1)
                 (map (fun p => Point.add p (offset square)) (points square))
               ++ firstn (0 + 1)
                    (map (fun p => Point.add p (offset square)) (points square)))
           ++ snappedPoint square (cutStart sameEdgeCut) :: interior sameEdgeCut)
    else
      Returns
        (snappedPoint square (cutStart sameEdgeCut)
           :: (skipn (0 + 1)
                 (map (fun p => Point.add p (offset square)) (points square))
               ++ firstn (0 + 1)
                    (map (fun p => Point.add p (offset square)) (points square)))
           ++ snappedPoint square (cutEnd sameEdgeCut) :: rev (interior sameEdgeCut),
         snappedPoint square (cutEnd sameEdgeCut)
           :: snappedPoint square (cutStart sameEdgeCut) :: interior sameEdgeCut).
Proof.
  apply (cutPolygon_shapes_same_edge square sameEdgeCut 0%nat 0%nat).
  - cbn [square points length]. lia.
  - cbn [sameEdgeCut length]. lia.
  - unfold startSegmentIndexOf, cutStart, sameEdgeCut. cbn [nth_error].
    rewrite Point_new_Some, square_snap_50_0. reflexivity.
  - unfold endSegmentIndexOf, cutEnd, sameEdgeCut. cbn [length Nat.sub nth_error].
    rewrite Point_new_Some, square_snap_250_0. reflexivity.
Defined.


